(** * Jiangmen warehouse report: product normalisation, in-transit
      aggregation, cut-off projection, calendar events and carrier colours.

    Shallow embedding of [src/江门仓库test.py].  The Streamlit widgets, the
    spreadsheet readers and the HTML and Excel writers are outside the
    model; the model starts from the rows of the two uploaded tables and
    follows the script from [normalize_product] down to the bars of the
    calendar.

    Conventions.
    - A Python [str] is a list of Unicode code points ([text]); literals are
      written as UTF-8 strings and decoded by [u].
    - A pandas [Timestamp] is a number of nanoseconds since the epoch, so it
      keeps its time of day; [NaT], and a null cell in general, is [None].
      A [datetime.date] is a number of days since 1970-01-01.
    - A quantity (Python [float]) is an exact rational: the rounding of
      IEEE-754 arithmetic is not modelled.
    - [groupby(...).sum()] is a finite map from the group key to the sum.
    - What pandas does with a frame without rows is not modelled (with no
      item at all the script stops at [items_df["预计到货时间"]]): the
      statements on the summary and the calendar are about the runs that
      reach them. *)

From Stdlib Require Import ZArith NArith QArith Lia List Ascii String DecimalString.
From stdpp Require Import base option list gmap sorting.

Local Open Scope N_scope.

(** ** Text *)

Abbreviation text := (list N).

Definition bytes_of_string (s : string) : list N :=
  map N_of_ascii (list_ascii_of_string s).

(** UTF-8 decoding; [k] is the number of continuation bytes still expected
    and [acc] the bits gathered so far. *)
Fixpoint utf8_decode (acc : N) (k : nat) (bs : list N) : text :=
  match bs with
  | [] => []
  | b :: bs' =>
    match k with
    | O =>
      if b <? 128 then b :: utf8_decode 0 O bs'
      else if b <? 224 then utf8_decode (b - 192) 1 bs'
      else if b <? 240 then utf8_decode (b - 224) 2 bs'
      else utf8_decode (b - 240) 3 bs'
    | S O => (acc * 64 + (b - 128)) :: utf8_decode 0 O bs'
    | S k' => utf8_decode (acc * 64 + (b - 128)) k' bs'
    end
  end.

(** The code points of a UTF-8 literal. *)
Definition u (s : string) : text := utf8_decode 0 O (bytes_of_string s).

Arguments u s%_string.

Definition text_eqb (a b : text) : bool := bool_decide (a = b).

Definition in_ranges (rs : list (N * N)) (c : N) : bool :=
  existsb (fun r => (fst r <=? c) && (c <=? snd r)) rs.

(** [str.isspace] / [\s] of a [str] pattern: the white space of the Unicode
    database of CPython. *)
Definition py_isspace : N -> bool :=
  in_ranges [(9, 13); (28, 32); (133, 133); (160, 160); (5760, 5760);
             (8192, 8202); (8232, 8233); (8239, 8239); (8287, 8287);
             (12288, 12288)].

(** [\d] of a [str] pattern: the decimal digits (category Nd) of the Unicode
    database of CPython; every block but the last has ten digits. *)
Definition unicode_digit_blocks : list N :=
  [0x30; 0x660; 0x6f0; 0x7c0; 0x966; 0x9e6; 0xa66; 0xae6; 0xb66; 0xbe6;
   0xc66; 0xce6; 0xd66; 0xde6; 0xe50; 0xed0; 0xf20; 0x1040; 0x1090; 0x17e0;
   0x1810; 0x1946; 0x19d0; 0x1a80; 0x1a90; 0x1b50; 0x1bb0; 0x1c40; 0x1c50;
   0xa620; 0xa8d0; 0xa900; 0xa9d0; 0xa9f0; 0xaa50; 0xabf0; 0xff10; 0x104a0;
   0x10d30; 0x11066; 0x110f0; 0x11136; 0x111d0; 0x112f0; 0x11450; 0x114d0;
   0x11650; 0x116c0; 0x11730; 0x118e0; 0x11950; 0x11c50; 0x11d50; 0x11da0;
   0x16a60; 0x16ac0; 0x16b50; 0x1e140; 0x1e2f0; 0x1e950; 0x1fbf0].

Definition py_isdecimal (c : N) : bool :=
  in_ranges (map (fun b => (b, b + 9)) unicode_digit_blocks) c
  || in_ranges [(0x1d7ce, 0x1d7ff)] c.

(** [[0-9]] *)
Definition ascii_digit (c : N) : bool := (48 <=? c) && (c <=? 57).

(** [.] without DOTALL: anything but a line feed. *)
Definition dot (c : N) : bool := negb (c =? 10).

(** [str.strip()] *)
Fixpoint lstrip (s : text) : text :=
  match s with
  | c :: s' => if py_isspace c then lstrip s' else s
  | [] => []
  end.

Definition rstrip (s : text) : text := rev (lstrip (rev s)).

Definition strip (s : text) : text := rstrip (lstrip s).

(** ** Regular expressions

    The patterns of the script use literals, character classes, sequence,
    alternation, the greedy [?] and the greedy [*] and [+] of a single
    character class.  [rmatch r s] lists, in the order in which the
    backtracking matcher of [re] tries them, the texts left after each way of
    matching [r] at the start of [s]. *)

Inductive regex : Type :=
| Lit (l : text)
| Cls (p : N -> bool)
| Seq (r1 r2 : regex)
| Alt (r1 r2 : regex)
| Opt (r : regex)
| Star (p : N -> bool)
| Plus (p : N -> bool).

Fixpoint strip_prefix (l s : text) : option text :=
  match l, s with
  | [], _ => Some s
  | a :: l', b :: s' => if a =? b then strip_prefix l' s' else None
  | _ :: _, [] => None
  end.

(** [needle in hay] for two [str]. *)
Fixpoint contains (needle hay : text) : bool :=
  match strip_prefix needle hay with
  | Some _ => true
  | None =>
    match hay with
    | [] => false
    | _ :: hay' => contains needle hay'
    end
  end.

Fixpoint star_rests (p : N -> bool) (s : text) : list text :=
  match s with
  | c :: s' => if p c then star_rests p s' ++ [s] else [s]
  | [] => [[]]
  end.

Fixpoint rmatch (r : regex) (s : text) : list text :=
  match r with
  | Lit l => match strip_prefix l s with Some e => [e] | None => [] end
  | Cls p => match s with c :: s' => if p c then [s'] else [] | [] => [] end
  | Seq r1 r2 => flat_map (rmatch r2) (rmatch r1 s)
  | Alt r1 r2 => rmatch r1 s ++ rmatch r2 s
  | Opt r1 => rmatch r1 s ++ [s]
  | Star p => star_rests p s
  | Plus p => match s with
              | c :: s' => if p c then star_rests p s' else []
              | [] => []
              end
  end.

Definition matches_at (r : regex) (s : text) : bool :=
  match rmatch r s with [] => false | _ :: _ => true end.

(** [re.search(r, s)] as a truth value: a match at some position of [s],
    the end of the text included. *)
Fixpoint re_search (r : regex) (s : text) : bool :=
  matches_at r s ||
  match s with
  | [] => false
  | _ :: s' => re_search r s'
  end.

(** A pattern [(g)rest] matched at the start of [s]: the text of group 1 and
    the text left after the whole match, for the first way of matching [g]
    after which [rest] matches. *)
Fixpoint first_with (rest : regex) (s : text) (es : list text)
  : option (text * text) :=
  match es with
  | [] => None
  | e :: es' =>
    match rmatch rest e with
    | e2 :: _ => Some (take (length s - length e) s, e2)
    | [] => first_with rest s es'
    end
  end.

Definition match_group1 (g rest : regex) (s : text) : option (text * text) :=
  first_with rest s (rmatch g s).

(** [re.search((g)rest, s).group(1)] at the leftmost matching position;
    [None] when there is no match. *)
Fixpoint search_group1 (g rest : regex) (s : text) : option text :=
  match match_group1 g rest s with
  | Some (grp, _) => Some grp
  | None =>
    match s with
    | [] => None
    | _ :: s' => search_group1 g rest s'
    end
  end.

(** [re.sub((g)rest, r"\1", s)] for a pattern that cannot match the empty
    text: every match, leftmost first and without overlap, is replaced by its
    group 1.  [skip] counts the characters of the current match that are
    still to be dropped. *)
Fixpoint sub_group1 (g rest : regex) (skip : nat) (s : text) : text :=
  match s with
  | [] => []
  | c :: s' =>
    match skip with
    | S n => sub_group1 g rest n s'
    | O =>
      match match_group1 g rest s with
      | Some (grp, e) =>
          grp ++ sub_group1 g rest (length s - length e - 1) s'
      | None => c :: sub_group1 g rest 0 s'
      end
    end
  end.

(** The texts that a pattern matches, independently of the order in which
    the matcher tries them. *)
Fixpoint lang (r : regex) (p : text) : Prop :=
  match r with
  | Lit l => p = l
  | Cls c => exists x, p = [x] /\ c x = true
  | Seq r1 r2 => exists p1 p2, p = p1 ++ p2 /\ lang r1 p1 /\ lang r2 p2
  | Alt r1 r2 => lang r1 p \/ lang r2 p
  | Opt r1 => p = [] \/ lang r1 p
  | Star c => forallb c p = true
  | Plus c => p <> [] /\ forallb c p = true
  end.

(** Sequence of several sub-patterns. *)
Fixpoint seqs (rs : list regex) : regex :=
  match rs with
  | [] => Lit []
  | [r] => r
  | r :: rs' => Seq r (seqs rs')
  end.

Definition any_star : regex := Star dot.

(** ** The rule table *)

Definition RULES : list (regex * text) :=
  [ (seqs [Lit (u "白色粉末"); any_star; Alt (Lit (u "T")) (Lit (u "甜")); any_star],
       u "白色粉末甜味优镁粉");
    (seqs [Lit (u "白色粉末"); any_star; Lit (u "白皮"); any_star],
       u "白色粉末（白皮）");
    (seqs [Lit (u "白色粉末"); any_star; Lit (u "优乐粉"); any_star],
       u "白色粉末优乐粉");
    (seqs [Lit (u "白色粉末"); any_star; Lit (u "优镁粉"); any_star],
       u "白色粉末优镁粉");
    (seqs [Lit (u "白色粉末"); any_star], u "白色粉末优镁粉");
    (seqs [Lit (u "金黄色粉末"); any_star; Lit (u "新配方"); any_star],
       u "金黄色粉末优镁粉2号");
    (seqs [Lit (u "金黄色粉末"); any_star; Lit (u "1号"); any_star],
       u "金黄色粉末优镁粉1号");
    (seqs [Lit (u "金黄色粉末"); any_star; Lit (u "2号"); any_star],
       u "金黄色粉末优镁粉2号");
    (seqs [Lit (u "金黄色粉末"); any_star; Lit (u "优镁粉"); any_star],
       u "金黄色粉末优镁粉1号");
    (seqs [Lit (u "金黄色粉末"); any_star], u "金黄色粉末优镁粉1号");
    (seqs [Lit (u "深黄色粉末"); any_star; Alt (Lit (u "T")) (Lit (u "甜")); any_star],
       u "深黄色粉末甜味优镁粉");
    (seqs [Lit (u "深黄色粉末"); any_star; Lit (u "优镁粉"); any_star],
       u "深黄色粉末优镁粉");
    (seqs [Lit (u "深黄色粉末"); any_star], u "深黄色粉末优镁粉");
    (seqs [Lit (u "浅黄色粉末"); any_star], u "浅黄色粉末优镁粉");
    (seqs [Lit (u "棕色"); any_star; Lit (u "1号"); any_star],
       u "棕色1号优镁粉");
    (seqs [Lit (u "棕色"); any_star; Alt (Lit (u "0号")) (Lit (u "2号")); any_star],
       u "棕色2号优镁粉") ].

Definition PREFERRED_ORDER : list text :=
  [ u "白色粉末优镁粉"; u "白色粉末甜味优镁粉"; u "白色粉末（白皮）";
    u "金黄色粉末优镁粉1号"; u "金黄色粉末优镁粉2号";
    u "深黄色粉末优镁粉"; u "深黄色粉末甜味优镁粉";
    u "浅黄色粉末优镁粉"; u "棕色1号优镁粉"; u "棕色2号优镁粉" ].

Definition PALETTE : list text :=
  [ u "#FAD7A0"; u "#AED6F1"; u "#A9DFBF"; u "#F5B7B1"; u "#D7BDE2";
    u "#F9E79F"; u "#85C1E9"; u "#ABEBC6"; u "#F8C471"; u "#F5CBA7" ].

(** ** [normalize_product] *)

(** The pattern of the clean-up substitution,
    [(（?白皮）?)\s*\d+(\.\d+)?\s*吨.*], as group 1 and the rest. *)
Definition PRECLEAN_GROUP : regex :=
  seqs [Opt (Lit (u "（")); Lit (u "白皮"); Opt (Lit (u "）"))].

Definition PRECLEAN_REST : regex :=
  seqs [Star py_isspace; Plus py_isdecimal;
        Opt (Seq (Lit (u ".")) (Plus py_isdecimal));
        Star py_isspace; Lit (u "吨"); any_star].

Definition preclean (name : text) : text :=
  sub_group1 PRECLEAN_GROUP PRECLEAN_REST 0 (strip name).

(** The [for pattern, target in RULES] loop. *)
Fixpoint first_rule (rules : list (regex * text)) (s : text) : option text :=
  match rules with
  | [] => None
  | (pattern, target) :: rules' =>
    if re_search pattern s then Some target else first_rule rules' s
  end.

Definition normalize_product (name : text) : option text :=
  first_rule RULES (preclean name).

(** [res] is the target of the first rule of [rules] whose pattern is found
    in [s], and [None] when no pattern is. *)
Definition first_match (rules : list (regex * text)) (s : text)
    (res : option text) : Prop :=
  match res with
  | Some t =>
      exists pre pat post,
        rules = pre ++ (pat, t) :: post /\
        re_search pat s = true /\
        Forall (fun q => re_search q.1 s = false) pre
  | None => Forall (fun q => re_search q.1 s = false) rules
  end.

(** ** Dates and timestamps *)

Local Open Scope Z_scope.

(** [datetime.date]: days since 1970-01-01. *)
Abbreviation date := Z.

(** [pandas.Timestamp] (time-zone naive): nanoseconds since 1970-01-01. *)
Abbreviation Timestamp := Z.

Definition NS_PER_DAY : Z := 86400000000000.

(** [pd.to_datetime(d)] of a [date]: midnight of that day. *)
Definition to_datetime (d : date) : Timestamp := d * NS_PER_DAY.

(** [Timestamp.date()] *)
Definition ts_date (t : Timestamp) : date := t / NS_PER_DAY.

(** [Timestamp.normalize()] *)
Definition ts_normalize (t : Timestamp) : Timestamp := to_datetime (ts_date t).

(** [(a - b).days] *)
Definition delta_days (a b : Timestamp) : Z := (a - b) / NS_PER_DAY.

(** [t + pd.Timedelta(days=n)] *)
Definition add_days (t : Timestamp) (n : Z) : Timestamp := t + n * NS_PER_DAY.

(** [date(y, m, d)] in the proleptic Gregorian calendar. *)
Definition mkdate (y m d : Z) : date :=
  let y' := if m <=? 2 then y - 1 else y in
  let era := y' / 400 in
  let yoe := y' - era * 400 in
  let mp := if 2 <? m then m - 3 else m + 9 in
  let doy := (153 * mp + 2) / 5 + d - 1 in
  let doe := yoe * 365 + yoe / 4 - yoe / 100 + doy in
  era * 146097 + doe - 719468.

(** [(d.year, d.month, d.day)] *)
Definition civil (z : date) : Z * Z * Z :=
  let z' := z + 719468 in
  let era := z' / 146097 in
  let doe := z' - era * 146097 in
  let yoe := (doe - doe / 1460 + doe / 36524 - doe / 146096) / 365 in
  let doy := doe - (365 * yoe + yoe / 4 - yoe / 100) in
  let mp := (5 * doy + 2) / 153 in
  let d := doy - (153 * mp + 2) / 5 + 1 in
  let m := if mp <? 10 then mp + 3 else mp - 9 in
  let y := yoe + era * 400 in
  (if m <=? 2 then y + 1 else y, m, d).

(** [date.weekday()]: Monday is 0; 1970-01-01 was a Thursday. *)
Definition weekday (d : date) : Z := (d + 3) mod 7.

(** [str(n)] of an [int]. *)
Definition str_int (n : Z) : text :=
  u (NilZero.string_of_int (Z.to_int n)).

(** [n] written with at least [w] digits, as [%02d] does for [0 <= n]. *)
Definition zero_pad (w : nat) (n : Z) : text :=
  let digits := str_int n in
  replicate (w - length digits) 48%N ++ digits.

(** [strftime('%Y-%m-%d')], also the format spec [:%Y-%m-%d]. *)
Definition strftime_ymd (d : date) : text :=
  match civil d with
  | (y, m, dd) => zero_pad 4 y ++ u "-" ++ zero_pad 2 m ++ u "-" ++ zero_pad 2 dd
  end.

(** ** Cells and Python truth values *)

(** A table cell that may be null ([NaN], [NaT]). *)
Abbreviation cell A := (option A).

(** [bool(x)] of a date cell: a [Timestamp] is a [datetime] and [NaT]
    derives from it; neither defines [__bool__], so both are true. *)
Definition ts_truthy (c : cell Timestamp) : bool := true.

(** [bool(x)] of a text cell: the empty [str] is false; a non-empty [str]
    and [NaN] (a non-zero [float]) are true. *)
Definition text_truthy (c : cell (list N)) : bool :=
  match c with
  | Some [] => false
  | _ => true
  end.

(** [a or b] *)
Definition py_or {A : Type} (truthy : A -> bool) (a b : A) : A :=
  if truthy a then a else b.

(** [pd.isna] *)
Definition isna {A : Type} (c : cell A) : bool :=
  match c with None => true | Some _ => false end.

(** ** [split_product_items] *)

(** A row of the tracking table, dates as [pd.to_datetime(...,
    errors="coerce")] reads them.  [row_warehouse_alt] is the optional
    column 仓库客服. *)
Record TrackRow : Type := {
  row_container : cell text;          (* 箱号/封号 *)
  row_product : text;                 (* str(row.get("产品", "")) *)
  row_ship : cell Timestamp;          (* 装货日期 *)
  row_eta_port : cell Timestamp;      (* 预计到港时间 *)
  row_eta_dest : cell Timestamp;      (* 预计到货时间 *)
  row_warehouse : cell text;          (* 仓库/客户 *)
  row_warehouse_alt : cell text;      (* 仓库客服 *)
  row_carrier : cell text             (* 货运公司 *)
}.

Record Item : Type := {
  container : cell text;              (* 箱号/封号 *)
  raw_name : text;                    (* 原始品名 *)
  product : text;                     (* 产品 *)
  qty : Q;                            (* 数量(吨) *)
  ship : cell Timestamp;              (* 装货日期 *)
  eta_port : cell Timestamp;          (* 预计到港时间 *)
  eta_dest : cell Timestamp;          (* 预计到货时间 *)
  warehouse : cell text;              (* 仓库/客户 *)
  carrier : cell text                 (* 货运公司 *)
}.

(** [re.split(r"[+,，]", s)] *)
Definition is_separator (c : N) : bool :=
  ((c =? 43) || (c =? 44) || (c =? 65292))%N.

Fixpoint re_split (sep : N -> bool) (s : text) : list text :=
  match s with
  | [] => [[]]
  | c :: s' =>
    if sep c then [] :: re_split sep s'
    else match re_split sep s' with
         | p :: ps => (c :: p) :: ps
         | [] => [[c]]
         end
  end.

(** The quantity pattern [([0-9]+(\.[0-9]+)?)\s*吨], as group 1 and the
    rest. *)
Definition QTY_GROUP : regex :=
  Seq (Plus ascii_digit) (Opt (Seq (Lit (u ".")) (Plus ascii_digit))).

Definition QTY_REST : regex := Seq (Star py_isspace) (Lit (u "吨")).

(** The value of a run of ASCII digits. *)
Fixpoint digits_val (acc : N) (s : text) : option N :=
  match s with
  | [] => Some acc
  | c :: s' =>
    if ascii_digit c then digits_val (10 * acc + (c - 48))%N s' else None
  end.

Fixpoint split_dot (s : text) : text * option text :=
  match s with
  | [] => ([], None)
  | c :: s' =>
    if (c =? 46)%N then ([], Some s')
    else match split_dot s' with (a, b) => (c :: a, b) end
  end.

(** [float(s)] on the numerals [digits] and [digits.digits], the only ones
    the quantity pattern produces; [None] on any other text. *)
Definition py_float (s : text) : option Q :=
  match split_dot s with
  | ([], _) => None
  | (ip, None) =>
      match digits_val 0 ip with
      | Some n => Some (inject_Z (Z.of_N n))
      | None => None
      end
  | (_, Some []) => None
  | (ip, Some fp) =>
      match digits_val 0 ip, digits_val 0 fp with
      | Some n, Some f =>
          let scale := 10 ^ Z.of_nat (length fp) in
          Some (Qmake (Z.of_N n * scale + Z.of_N f) (Z.to_pos scale))
      | _, _ => None
      end
  end.

(** The body of the [for p in parts] loop: the item of one part, if any.
    [float] cannot raise here, since its argument is group 1 of the quantity
    pattern (lemma [qty_group_float]); the [None] branch of [py_float] is
    therefore dead and shares the [continue]. *)
Definition item_of_part (row : TrackRow) (part : text) : option Item :=
  let p := strip part in
  match search_group1 QTY_GROUP QTY_REST p with
  | None => None
  | Some g =>
    match py_float g with
    | None => None
    | Some q =>
      match normalize_product p with
      | None => None
      | Some base =>
        Some {| container := row_container row;
                raw_name := p;
                product := base;
                qty := q;
                ship := row_ship row;
                eta_port := row_eta_port row;
                eta_dest := row_eta_dest row;
                warehouse := py_or text_truthy (row_warehouse row)
                                              (row_warehouse_alt row);
                carrier := row_carrier row |}
      end
    end
  end.

Definition split_product_items (row : TrackRow) : list Item :=
  omap (item_of_part row) (re_split is_separator (row_product row)).

(** [items_df]: the items of all tracking rows, in row order. *)
Definition items_df (track : list TrackRow) : list Item :=
  flat_map split_product_items track.

(** ** In-transit items and their aggregation *)

(** [items_df[(items_df["预计到货时间"].isna()) |
              (items_df["预计到货时间"] >= today_ts)]] *)
Definition is_intransit (today : date) (it : Item) : bool :=
  match eta_dest it with
  | None => true
  | Some t => to_datetime today <=? t
  end.

Definition intransit_df (today : date) (items : list Item) : list Item :=
  List.filter (is_intransit today) items.

(** [f"装货日期{ship.strftime('%Y-%m-%d')}（{days}天到）"] *)
Definition label_text (ship_day : date) (days : Z) : text :=
  u "装货日期" ++ strftime_ymd ship_day ++ u "（" ++ str_int days ++ u "天到）".

(** [label_for(row)]; [None] is the label of a row without shipping date
    or without arrival. *)
Definition label_for (it : Item) : option text :=
  let shipped := ship it in
  let arrival := py_or ts_truthy (eta_port it) (eta_dest it) in
  match shipped, arrival with
  | Some s, Some e =>
      let days := delta_days (ts_normalize e) (ts_normalize s) in
      Some (label_text (ts_date s) days)
  | _, _ => None
  end.

(** [Series.sum()]: the terms are added from left to right. *)
Definition Qsum (l : list Q) : Q := fold_left Qplus l 0%Q.

(** One step of [groupby(key)[qty].sum()]: the row is added to the sum of
    its group. *)
Definition group_add `{Countable K} (key : Item -> K)
    (m : gmap K Q) (it : Item) : gmap K Q :=
  <[key it := (default 0%Q (m !! key it) + qty it)%Q]> m.

Definition groupby_sum `{Countable K} (key : Item -> K) (l : list Item)
  : gmap K Q :=
  fold_left (group_add key) l ∅.

(** The quantities of the rows of [l] whose key is [k]. *)
Definition group_qty `{Countable K} (key : Item -> K) (k : K) (l : list Item)
  : list Q :=
  map qty (List.filter (fun it => bool_decide (key it = k)) l).

(** The rows that [dropna(subset=["装货标签"])] keeps, with their label. *)
Definition labelled (intransit : list Item) : list Item :=
  List.filter (fun it => negb (isna (label_for it))) intransit.

Definition label_or_empty (it : Item) : text := default [] (label_for it).

(** [lab_tbl] before [unstack]: the sum of each (产品, 装货标签) group.  The
    rows of the unstacked table are the products of [lab_products]. *)
Definition lab_tbl (intransit : list Item) : gmap (list N * list N) Q :=
  groupby_sum (fun it => (product it, label_or_empty it)) (labelled intransit).

Definition lab_products (intransit : list Item) : gset (list N) :=
  list_to_set (map product (labelled intransit)).

Definition intransit_sum (intransit : list Item) : gmap (list N) Q :=
  groupby_sum product intransit.

(** [intransit_df["预计到货时间"].fillna(intransit_df["预计到港时间"])] *)
Definition eta_col (it : Item) : cell Timestamp :=
  match eta_dest it with
  | Some t => Some t
  | None => eta_port it
  end.

(** [eta_col <= cutoff_ts]; a comparison with [NaT] is false. *)
Definition arrives_by (cutoff : date) (it : Item) : bool :=
  match eta_col it with
  | Some t => t <=? to_datetime cutoff
  | None => false
  end.

Definition arrive_by_cutoff (cutoff : date) (intransit : list Item)
  : gmap (list N) Q :=
  groupby_sum product (List.filter (arrives_by cutoff) intransit).

(** ** The stock table *)

Record StockRow : Type := {
  st_product : text;                  (* str of 产品 *)
  st_actual : cell Q;                 (* 江门实际库存数量 *)
  st_recorded : cell Q;               (* 记录库存数量 *)
  st_note : cell text                 (* 备注, as str *)
}.

(** [normalize_product(x) or str(x)] *)
Definition normalize_or_self (x : text) : text :=
  match normalize_product x with
  | Some (c :: t) => c :: t
  | _ => x
  end.

(** [replace({"棕色0号优镁粉": "棕色2号优镁粉"})] *)
Definition fix_brown (x : text) : text :=
  if text_eqb x (u "棕色0号优镁粉") then u "棕色2号优镁粉" else x.

Definition stock_product (r : StockRow) : text :=
  fix_brown (normalize_or_self (st_product r)).

Definition isin (x : text) (l : list text) : bool := existsb (text_eqb x) l.

(** One group of the aggregated stock table; the note is still the list of
    its non-null parts. *)
Record StockAgg : Type := {
  agg_actual : Q;
  agg_recorded : Q;
  agg_notes : list text
}.

Definition stock_add (m : gmap (list N) StockAgg) (r : StockRow)
  : gmap (list N) StockAgg :=
  let k := stock_product r in
  let a := default {| agg_actual := 0; agg_recorded := 0; agg_notes := [] |}
                   (m !! k) in
  <[k := {| agg_actual := (agg_actual a + default 0 (st_actual r))%Q;
            agg_recorded := (agg_recorded a + default 0 (st_recorded r))%Q;
            agg_notes := agg_notes a ++ option_list (st_note r) |}]> m.

(** [stock_df] after normalisation, the [isin(PREFERRED_ORDER)] filter and
    [groupby("产品").agg(...)]; a null quantity is skipped by [sum]. *)
Definition stock_df (stock : list StockRow) : gmap (list N) StockAgg :=
  fold_left stock_add
    (List.filter (fun r => isin (stock_product r) PREFERRED_ORDER) stock) ∅.

(** ["；".join(notes)[:200]] *)
Fixpoint join (sep : text) (l : list text) : text :=
  match l with
  | [] => []
  | [x] => x
  | x :: l' => x ++ sep ++ join sep l'
  end.

Definition note_text (notes : list text) : text :=
  take 200 (join (u "；") notes).

(** ** The summary table *)

Record SummaryRow : Type := {
  s_product : text;                   (* 产品 *)
  s_actual : Q;                       (* 江门实际库存数量 *)
  s_intransit : Q;                    (* 运送途中数量 *)
  s_arrive : Q;                       (* 截止日预计到货 *)
  s_projected : Q;                    (* 预计江门库存数量（截止...） *)
  s_recorded : Q;                     (* 记录库存数量 *)
  s_note : text                       (* 备注 *)
}.

(** The row of product [c] after the three merges, the two [fillna] and the
    projected column.  The label columns come from [lab_tbl] unchanged and
    are left out of the record. *)
Definition summary_row (stock : gmap (list N) StockAgg)
    (sums arrive : gmap (list N) Q) (c : text) : SummaryRow :=
  let actual := from_option agg_actual 0%Q (stock !! c) in
  let arrived := default 0%Q (arrive !! c) in
  {| s_product := c;
     s_actual := actual;
     s_intransit := default 0%Q (sums !! c);
     s_arrive := arrived;
     s_projected := (actual + arrived)%Q;
     s_recorded := from_option agg_recorded 0%Q (stock !! c);
     s_note := from_option (fun a => note_text (agg_notes a)) [] (stock !! c) |}.

(** The outer merge of [stock_df] and [lab_tbl] has one row for each product
    of either table; the two left merges add no row.  The rows whose product
    [isin(PREFERRED_ORDER)] are kept and sorted by their position in that
    list. *)
Definition summary_products (stock : gmap (list N) StockAgg)
    (intransit : list Item) : list text :=
  List.filter
    (fun c => bool_decide (c ∈ dom stock ∪ lab_products intransit))
    PREFERRED_ORDER.

Definition summary_df (stock : list StockRow) (track : list TrackRow)
    (today cutoff : date) : list SummaryRow :=
  let intransit := intransit_df today (items_df track) in
  map (summary_row (stock_df stock) (intransit_sum intransit)
                   (arrive_by_cutoff cutoff intransit))
      (summary_products (stock_df stock) intransit).

(** ** Carrier colours *)

(** [Series.unique()]: the distinct values in order of first appearance. *)
Fixpoint unique (l : list text) : list text :=
  match l with
  | [] => []
  | x :: l' => x :: List.filter (fun y => negb (text_eqb x y)) (unique l')
  end.

(** The order of [str]: lexicographic on code points. *)
Fixpoint text_leb (a b : text) : bool :=
  match a, b with
  | [], _ => true
  | _ :: _, [] => false
  | x :: a', y :: b' =>
    if (x <? y)%N then true
    else if (y <? x)%N then false
    else text_leb a' b'
  end.

Definition text_le (a b : text) : Prop := text_leb a b = true.

#[global] Instance text_le_dec : RelDecision text_le :=
  fun a b => decide (text_leb a b = true).

(** [sorted(l)] *)
Definition sorted (l : list text) : list text := merge_sort text_le l.

(** [intransit_df["货运公司"].dropna().unique().tolist()] *)
Definition carriers (intransit : list Item) : list text :=
  unique (omap carrier intransit).

Definition palette_at (i : nat) : text :=
  default [] (PALETTE !! (i mod length PALETTE)%nat).

(** [{c: PALETTE[i % len(PALETTE)] for i, c in enumerate(sorted(carriers))}] *)
Definition color_map (intransit : list Item) : gmap (list N) (list N) :=
  fold_left (fun m kv => <[kv.1 := kv.2]> m)
            (imap (fun i c => (c, palette_at i)) (sorted (carriers intransit)))
            ∅.

Definition DEFAULT_BAR_COLOR : text := u "#e8e8e8".

(** [color_map.get(ev['carrier'], '#e8e8e8')]; a null carrier is no key of
    the map. *)
Definition bar_color (cm : gmap (list N) (list N)) (c : cell text) : text :=
  match c with
  | Some k => default DEFAULT_BAR_COLOR (cm !! k)
  | None => DEFAULT_BAR_COLOR
  end.

(** ** Calendar events *)

Record Event : Type := {
  ev_start : date;                    (* "start" *)
  ev_end : date;                      (* "end" *)
  ev_datestr : text;                  (* "datestr" *)
  ev_days : Z;                        (* "days" *)
  ev_qty : Q;                         (* "qty" *)
  ev_carrier : cell text;             (* "carrier" *)
  ev_warehouse : cell text;           (* "warehouse" *)
  ev_container : cell text            (* "container" *)
}.

Definition qty_truthy (q : Q) : bool := negb (Qeq_bool q 0).

(** The body of the [for _, r in df.iterrows()] loop. *)
Definition event_of (window_start window_end : date) (r : Item)
  : option Event :=
  let s_ts := ship r in
  let e_ts := py_or ts_truthy (eta_dest r) (eta_port r) in
  match s_ts with
  | None => None
  | Some s_ts =>
    let e_ts := match e_ts with
                | None => add_days s_ts 7
                | Some e => e
                end in
    let start_full := ts_date (ts_normalize s_ts) in
    let end_full := ts_date (ts_normalize e_ts) in
    let s := Z.max start_full window_start in
    let e := Z.min end_full window_end in
    if e <? s then None
    else
      Some {| ev_start := s;
              ev_end := e;
              ev_datestr := strftime_ymd start_full ++ u " ~ "
                            ++ strftime_ymd end_full;
              ev_days := end_full - start_full + 1;
              ev_qty := py_or qty_truthy (qty r) 0%Q;
              ev_carrier := py_or text_truthy (carrier r) (Some []);
              ev_warehouse := py_or text_truthy (warehouse r) (Some []);
              ev_container := py_or text_truthy (container r) (Some []) |}
  end.

(** The last day of the full interval that [event_of] computes for an item
    shipped at [shipped]: the day of the warehouse arrival, and seven days
    after shipping when that arrival is null. *)
Definition end_full_of (r : Item) (shipped : Timestamp) : date :=
  match eta_dest r with
  | Some e => ts_date e
  | None => ts_date shipped + 7
  end.

Definition make_events_for_product (intransit : list Item) (prod : text)
    (window_start : date) (days : Z) : list Event :=
  let window_end := window_start + (days - 1) in
  let df := List.filter (fun r => text_eqb (product r) prod) intransit in
  omap (event_of window_start window_end) df.

(** ** The week grid of [build_calendar_html_events_grid] *)

(** The [while cur <= window_end] loop over the first days of the months.
    Each round moves [cur] forward by at least 28 days, so the rounds that
    [months] allows are enough (lemma [months_fuel_enough]). *)
Fixpoint months_from (fuel : nat) (y m : Z) (window_end : date)
  : list (Z * Z) :=
  match fuel with
  | O => []
  | S fuel' =>
    if mkdate y m 1 <=? window_end then
      (y, m) :: (if m =? 12 then months_from fuel' (y + 1) 1 window_end
                 else months_from fuel' y (m + 1) window_end)
    else []
  end.

Definition months (window_start window_end : date) : list (Z * Z) :=
  match civil window_start with
  | (y, m, _) =>
    months_from (S (Z.to_nat (window_end - mkdate y m 1))) y m window_end
  end.

(** [calendar.Calendar(firstweekday=0).monthdatescalendar(y, m)]: the full
    weeks, Monday first, that cover the month. *)
Definition monthdatescalendar (y m : Z) : list (list date) :=
  let first := mkdate y m 1 in
  let next := if m =? 12 then mkdate (y + 1) 1 1 else mkdate y (m + 1) 1 in
  let start := first - weekday first in
  let nweeks := (next - start + 6) / 7 in
  map (fun w => map (fun i => start + 7 * w + i) (seqZ 0 7)) (seqZ 0 nweeks).

(** A bar of a week row: [grid-column: bar_column / span bar_span], the
    event whose label it shows, and its fill colour. *)
Record Bar : Type := {
  bar_column : Z;
  bar_span : Z;
  bar_event : Event;
  bar_fill : text
}.

(** The body of the [for ev in events] loop of one week. *)
Definition bar_of (cm : gmap (list N) (list N)) (week_start week_end : date)
    (ev : Event) : option Bar :=
  let seg_start := Z.max (ev_start ev) week_start in
  let seg_end := Z.min (ev_end ev) week_end in
  if seg_end <? seg_start then None
  else Some {| bar_column := weekday seg_start + 1;
               bar_span := seg_end - seg_start + 1;
               bar_event := ev;
               bar_fill := bar_color cm (ev_carrier ev) |}.

Definition week_bars (cm : gmap (list N) (list N)) (events : list Event)
    (week : list date) : list Bar :=
  omap (bar_of cm (List.hd 0 week) (List.last week 0)) events.

(** All the bars of the page, month by month and week by week. *)
Definition calendar_bars (cm : gmap (list N) (list N)) (window_start : date)
    (days : Z) (events : list Event) : list Bar :=
  let window_end := window_start + (days - 1) in
  flat_map (fun ym => flat_map (week_bars cm events)
                               (monthdatescalendar ym.1 ym.2))
           (months window_start window_end).

(** ** Further parts of the script *)

(** A text in which 棕色 is followed, on the same line, by 0号, 1号 or
    2号. *)
Definition brown_numbered (s : text) : Prop :=
  exists (a b c : text) (d : N),
    s = a ++ u "棕色" ++ b ++ d :: u "号" ++ c /\
    forallb dot b = true /\ In d [48; 49; 50]%N.

(** The totals of the five numeric columns of the summary that are left
    after the label columns, 产品 and 备注 are dropped:
    [summary_df.drop(columns=[...]).sum(numeric_only=True)]. *)
Record TotalRow : Type := {
  t_actual : Q;
  t_intransit : Q;
  t_arrive : Q;
  t_projected : Q;
  t_recorded : Q
}.

Definition total_row (rows : list SummaryRow) : TotalRow :=
  {| t_actual := Qsum (map s_actual rows);
     t_intransit := Qsum (map s_intransit rows);
     t_arrive := Qsum (map s_arrive rows);
     t_projected := Qsum (map s_projected rows);
     t_recorded := Qsum (map s_recorded rows) |}.

(** The rows of the stock table that count for a category. *)
Definition stock_rows_of (c : text) (stock : list StockRow) : list StockRow :=
  List.filter (fun r => text_eqb (stock_product r) c) stock.


(** The value of [cur] after one round of the [while cur <= window_end]
    loop that began at the first day of month [m] of year [y]. *)
Definition next_first (y m : Z) : date :=
  if m =? 12 then mkdate (y + 1) 1 1 else mkdate y (m + 1) 1.

(** [[p for p in PREFERRED_ORDER if p in intransit_df["产品"].unique()]] *)
Definition products_with_data (intransit : list Item) : list text :=
  List.filter (fun p => isin p (unique (map product intransit)))
              PREFERRED_ORDER.

(** [f"calendar_{prod}.html"] *)
Definition calendar_file_name (prod : text) : text :=
  u "calendar_" ++ prod ++ u ".html".

(** The names that [build_zip_calendars] writes into the archive, in the
    order of the [z.writestr] calls. *)
Definition zip_names (all_prods : list text) : list text :=
  map calendar_file_name all_prods ++ [u "index.html"].

(** ** The wording of the specification

    The projection, the label and the interval of an item as the
    specification words them, to be compared with what the script
    computes. *)

(** An item counts for the projection when its effective arrival date, the
    warehouse one if present and else the port one, is on or before the
    cut-off date. *)
Definition spec_arrives_by (cutoff : date) (it : Item) : bool :=
  match eta_col it with
  | Some t => ts_date t <=? cutoff
  | None => false
  end.

Definition spec_projected (actual : Q) (cutoff : date) (c : text)
    (intransit : list Item) : Q :=
  (actual +
   Qsum (group_qty product c (List.filter (spec_arrives_by cutoff) intransit)))%Q.

(** The effective port arrival of a label: the port one, and the warehouse
    one when the port one is absent. *)
Definition spec_eta_port (it : Item) : cell Timestamp :=
  match eta_port it with
  | Some t => Some t
  | None => eta_dest it
  end.

Definition spec_label_for (it : Item) : option text :=
  match ship it, spec_eta_port it with
  | Some s, Some e => Some (label_text (ts_date s) (ts_date e - ts_date s))
  | _, _ => None
  end.

(** The last day of the full interval of an event: the effective arrival
    date, and seven days after shipping when there is none. *)
Definition spec_end_full (it : Item) (shipped : Timestamp) : date :=
  match eta_col it with
  | Some t => ts_date t
  | None => ts_date shipped + 7
  end.

(** The full interval of an item: from the shipping date to the effective
    arrival date or, without one, to seven days after shipping. *)
Definition spec_interval (it : Item) : option (date * date) :=
  match ship it with
  | Some s => Some (ts_date s, spec_end_full it s)
  | None => None
  end.

(** ** Sample tables

    The rows used below to run the script on concrete inputs. *)

Definition midnight (y m d : Z) : Timestamp := to_datetime (mkdate y m d).

Definition o_clock (y m d h : Z) : Timestamp :=
  midnight y m d + h * 3600000000000.

(** A stock row 白色粉末 with 100 t counted and 120 t on record. *)
Definition stock_white : StockRow :=
  {| st_product := u "白色粉末";
     st_actual := Some 100%Q;
     st_recorded := Some 120%Q;
     st_note := None |}.

Definition track_row (prod : string) (shipped port dest : cell Timestamp)
    (who : cell text) : TrackRow :=
  {| row_container := Some (u "TCLU1234567");
     row_product := u prod;
     row_ship := shipped;
     row_eta_port := port;
     row_eta_dest := dest;
     row_warehouse := Some (u "江门仓");
     row_warehouse_alt := None;
     row_carrier := who |}.

(** 20 t of white powder due at the warehouse on 2024-03-10 at 15:00. *)
Definition row_afternoon : TrackRow :=
  track_row "白色粉末优镁粉20吨"
            (Some (midnight 2024 3 1)) (Some (midnight 2024 3 5))
            (Some (o_clock 2024 3 10 15)) (Some (u "CarrierA")).

(** 20 t shipped on 2024-03-01, due at the warehouse on 2024-03-05, with no
    port arrival recorded. *)
Definition row_no_port : TrackRow :=
  track_row "白色粉末优镁粉20吨"
            (Some (midnight 2024 3 1)) None
            (Some (midnight 2024 3 5)) (Some (u "CarrierA")).

(** 20 t shipped on 2024-01-01, due at the port on 2024-01-03, with no
    warehouse arrival recorded. *)
Definition row_no_dest : TrackRow :=
  track_row "白色粉末优镁粉20吨"
            (Some (midnight 2024 1 1)) (Some (midnight 2024 1 3))
            None (Some (u "CarrierA")).

(** 20 t shipped on 2024-01-01 and due at the warehouse on 2024-01-10. *)
Definition row_ten_days : TrackRow :=
  track_row "白色粉末优镁粉20吨"
            (Some (midnight 2024 1 1)) (Some (midnight 2024 1 8))
            (Some (midnight 2024 1 10)) (Some (u "CarrierA")).

(** 20 t of 白色粉末优乐粉. *)
Definition row_youle : TrackRow :=
  track_row "白色粉末优乐粉20吨"
            (Some (midnight 2024 3 1)) (Some (midnight 2024 3 5))
            (Some (midnight 2024 3 8)) (Some (u "CarrierA")).

(** An item without shipping date, due at the warehouse on 2024-01-06. *)
Definition item_no_ship : Item :=
  {| container := Some (u "TCLU1234567");
     raw_name := u "白色粉末优镁粉20吨";
     product := u "白色粉末优镁粉";
     qty := 20%Q;
     ship := None;
     eta_port := Some (midnight 2024 1 4);
     eta_dest := Some (midnight 2024 1 6);
     warehouse := Some (u "江门仓");
     carrier := Some (u "CarrierA") |}.

(** 5 t of brown powder with another carrier. *)
Definition row_brown : TrackRow :=
  track_row "棕色1号5吨"
            (Some (midnight 2024 3 2)) (Some (midnight 2024 3 6))
            None (Some (u "Bestway")).

(** The tracking row of the worked example: 20 t of white powder and 5 t
    of brown no. 1 in one container, shipped on 2024-03-01 and due at the
    port on 2024-03-05. *)
Definition row_scenario : TrackRow :=
  track_row "白色粉末20吨+棕色1号5吨"
            (Some (midnight 2024 3 1)) (Some (midnight 2024 3 5))
            None (Some (u "CarrierA")).

(** The first item of [row_scenario]: 20 t of white powder. *)
Definition item_white : Item :=
  {| container := Some (u "TCLU1234567");
     raw_name := u "白色粉末20吨";
     product := u "白色粉末优镁粉";
     qty := 20%Q;
     ship := Some (midnight 2024 3 1);
     eta_port := Some (midnight 2024 3 5);
     eta_dest := None;
     warehouse := Some (u "江门仓");
     carrier := Some (u "CarrierA") |}.

(** A tracking row whose product text has a quantity without 吨. *)
Definition row_no_unit : TrackRow :=
  track_row "白色粉末优镁粉20"
            (Some (midnight 2024 3 1)) (Some (midnight 2024 3 5))
            None (Some (u "CarrierA")).

(** The summary row of white powder for [stock_white] and [row_scenario]
    on 2024-03-01 with the cut-off 2024-03-10. *)
Definition summary_white : SummaryRow :=
  {| s_product := u "白色粉末优镁粉";
     s_actual := 100%Q;
     s_intransit := 20%Q;
     s_arrive := 20%Q;
     s_projected := 120%Q;
     s_recorded := 120%Q;
     s_note := [] |}.

(** The event of [item_white] in a window of 14 days from 2024-03-01. *)
Definition event_white : Event :=
  {| ev_start := mkdate 2024 3 1;
     ev_end := mkdate 2024 3 8;
     ev_datestr := u "2024-03-01 ~ 2024-03-08";
     ev_days := 8;
     ev_qty := 20%Q;
     ev_carrier := Some (u "CarrierA");
     ev_warehouse := Some (u "江门仓");
     ev_container := Some (u "TCLU1234567") |}.

(** Its bar in the week from Monday 2024-02-26: Friday to Sunday. *)
Definition bar_white : Bar :=
  {| bar_column := 5;
     bar_span := 3;
     bar_event := event_white;
     bar_fill := u "#FAD7A0" |}.

(** * Properties *)

(** Closed statements on sample inputs are settled by running the model. *)
Ltac run_model := repeat split; vm_compute; reflexivity.

(** Integer arithmetic with divisions by constants. *)
Ltac div_lia := Z.to_euclidean_division_equations; lia.

(** ** The matcher against the denotation *)

Lemma strip_prefix_spec (l s e : text) :
  strip_prefix l s = Some e <-> s = l ++ e.
Proof.
  revert s. induction l as [|a l IH]; intros s; simpl.
  - split; [intros [= ->]; reflexivity | intros ->; reflexivity].
  - destruct s as [|b s]; [split; [discriminate | intros [=]] |].
    destruct (N.eqb_spec a b) as [->|Hab].
    + rewrite IH. split; [intros ->; reflexivity | intros [= ->]; reflexivity].
    + split; [discriminate | intros [= -> _]; contradiction].
Qed.

Lemma contains_spec (needle hay : text) :
  contains needle hay = true <-> exists a b, hay = a ++ needle ++ b.
Proof.
  induction hay as [|x hay IH]; simpl.
  - destruct (strip_prefix needle []) as [e|] eqn:Hp.
    + apply strip_prefix_spec in Hp. split; [intros _ | reflexivity].
      exists [], e. exact Hp.
    + split; [discriminate |]. intros (a & b & Hs).
      destruct a; [|discriminate]. simpl in Hs.
      apply strip_prefix_spec in Hs. congruence.
  - destruct (strip_prefix needle (x :: hay)) as [e|] eqn:Hp.
    + apply strip_prefix_spec in Hp. split; [intros _ | reflexivity].
      exists [], e. exact Hp.
    + rewrite IH. split.
      * intros (a & b & ->). exists (x :: a), b. reflexivity.
      * intros (a & b & Hs). destruct a as [|y a]; simpl in Hs.
        -- apply strip_prefix_spec in Hs. congruence.
        -- injection Hs as <- ->. eauto.
Qed.

Lemma star_rests_spec (c : N -> bool) (s e : text) :
  In e (star_rests c s) <-> exists p, s = p ++ e /\ forallb c p = true.
Proof.
  induction s as [|x s IH]; simpl.
  - split.
    + intros [<- | []]. exists []. split; reflexivity.
    + intros (p & Hp & _). symmetry in Hp.
      apply app_eq_nil in Hp as [_ ->]. left; reflexivity.
  - destruct (c x) eqn:Hx.
    + rewrite in_app_iff, IH. simpl. split.
      * intros [(p & -> & Hp) | [<- | []]].
        -- exists (x :: p). simpl. rewrite Hx, Hp. split; reflexivity.
        -- exists []. split; reflexivity.
      * intros (p & Hs & Hp). destruct p as [|y p]; simpl in *.
        -- right; left; exact Hs.
        -- injection Hs as <- ->. apply andb_prop in Hp as [_ Hp].
           left. exists p. split; [reflexivity | exact Hp].
    + simpl. split.
      * intros [<- | []]. exists []. split; reflexivity.
      * intros (p & Hs & Hp). destruct p as [|y p]; simpl in *.
        -- left; exact Hs.
        -- injection Hs as <- ->. rewrite Hx in Hp. discriminate.
Qed.

Lemma rmatch_spec (r : regex) (s e : text) :
  In e (rmatch r s) <-> exists p, s = p ++ e /\ lang r p.
Proof.
  revert s e. induction r as [l|c|r1 IH1 r2 IH2|r1 IH1 r2 IH2|r1 IH1|c|c];
    intros s e; simpl.
  - destruct (strip_prefix l s) as [e'|] eqn:Hl.
    + apply strip_prefix_spec in Hl. subst s. simpl. split.
      * intros [<- | []]. exists l. split; reflexivity.
      * intros (p & Hs & ->). apply app_inv_head in Hs. left; exact Hs.
    + simpl. split; [intros [] |]. intros (p & Hs & ->).
      apply strip_prefix_spec in Hs. congruence.
  - destruct s as [|x s].
    + simpl. split; [intros [] |]. intros (p & Hs & y & -> & _). discriminate.
    + destruct (c x) eqn:Hx; simpl.
      * split.
        -- intros [<- | []]. exists [x]. split; [reflexivity | eauto].
        -- intros (p & Hs & y & -> & _). injection Hs as _ ->. left; reflexivity.
      * split; [intros [] |]. intros (p & Hs & y & -> & Hy).
        injection Hs as -> _. congruence.
  - rewrite in_flat_map. split.
    + intros (m & Hm & He). apply IH1 in Hm as (p1 & -> & H1).
      apply IH2 in He as (p2 & -> & H2).
      exists (p1 ++ p2). rewrite <- app_assoc. split; [reflexivity | eauto].
    + intros (p & -> & p1 & p2 & -> & H1 & H2). exists (p2 ++ e). split.
      * apply IH1. exists p1. rewrite <- app_assoc. split; [reflexivity | exact H1].
      * apply IH2. exists p2. split; [reflexivity | exact H2].
  - rewrite in_app_iff, IH1, IH2. split.
    + intros [(p & Hs & Hp) | (p & Hs & Hp)]; exists p; tauto.
    + intros (p & Hs & [Hp | Hp]); [left | right]; exists p; tauto.
  - rewrite in_app_iff, IH1. simpl. split.
    + intros [(p & Hs & Hp) | [<- | []]].
      * exists p. tauto.
      * exists []. split; [reflexivity | left; reflexivity].
    + intros (p & Hs & [-> | Hp]).
      * right; left. exact Hs.
      * left. exists p. tauto.
  - apply star_rests_spec.
  - destruct s as [|x s].
    + simpl. split; [intros [] |]. intros (p & Hs & Hne & _).
      symmetry in Hs. apply app_eq_nil in Hs as [-> _]. contradiction.
    + destruct (c x) eqn:Hx.
      * rewrite star_rests_spec. split.
        -- intros (p & -> & Hp). exists (x :: p). simpl. rewrite Hx, Hp.
           split; [reflexivity | split; [discriminate | reflexivity]].
        -- intros (p & Hs & Hne & Hp). destruct p as [|y p]; [contradiction |].
           simpl in *. injection Hs as <- ->. apply andb_prop in Hp as [_ Hp].
           exists p. split; [reflexivity | exact Hp].
      * simpl. split; [intros [] |]. intros (p & Hs & Hne & Hp).
        destruct p as [|y p]; [contradiction |]. simpl in *.
        injection Hs as <- ->. rewrite Hx in Hp. discriminate.
Qed.

Lemma matches_at_spec (r : regex) (s : text) :
  matches_at r s = true <-> exists p e, s = p ++ e /\ lang r p.
Proof.
  unfold matches_at. destruct (rmatch r s) as [|e es] eqn:Hm.
  - split; [discriminate |]. intros (p & e & Hs & Hp).
    assert (In e (rmatch r s)) as Hin by (apply rmatch_spec; eauto).
    rewrite Hm in Hin. destruct Hin.
  - split; [intros _ | reflexivity].
    assert (In e (rmatch r s)) as Hin by (rewrite Hm; left; reflexivity).
    apply rmatch_spec in Hin as (p & Hs & Hp). eauto.
Qed.

(** [re.search] finds the pattern exactly when some part of the text is in
    its denotation. *)
Lemma re_search_spec (r : regex) (s : text) :
  re_search r s = true <-> exists a p b, s = a ++ p ++ b /\ lang r p.
Proof.
  induction s as [|x s IH]; simpl; rewrite orb_true_iff, matches_at_spec.
  - split.
    + intros [(p & e & Hs & Hp) | [=]]. exists [], p, e. eauto.
    + intros (a & p & b & Hs & Hp). left. destruct a; [|discriminate].
      exists p, b. eauto.
  - rewrite IH. split.
    + intros [(p & e & Hs & Hp) | (a & p & b & -> & Hp)].
      * exists [], p, e. eauto.
      * exists (x :: a), p, b. eauto.
    + intros (a & p & b & Hs & Hp). destruct a as [|y a]; simpl in Hs.
      * left. eauto.
      * injection Hs as <- ->. right. eauto.
Qed.

(** ** [normalize_product] *)

Lemma first_rule_first_match (rules : list (regex * text)) (s : text) :
  first_match rules s (first_rule rules s).
Proof.
  induction rules as [|[pat t] rules IH]; simpl.
  - constructor.
  - destruct (re_search pat s) eqn:Hpat.
    + exists [], pat, rules. repeat split; [exact Hpat | constructor].
    + destruct (first_rule rules s) as [t'|]; simpl in *.
      * destruct IH as (pre & pat' & post & -> & Hfound & Hpre).
        exists ((pat, t) :: pre), pat', post.
        repeat split; [exact Hfound | constructor; assumption].
      * constructor; assumption.
Qed.

Lemma first_rule_target (rules : list (regex * text)) (s t : text) :
  first_rule rules s = Some t -> In t (map snd rules).
Proof.
  induction rules as [|[pat t'] rules IH]; simpl; [discriminate |].
  destruct (re_search pat s); [intros [= ->]; left; reflexivity |].
  intros H. right. exact (IH H).
Qed.

Lemma rule_targets_fixed (t : text) :
  In t (map snd RULES) -> normalize_product t = Some t.
Proof.
  intros Hin.
  assert (forallb (fun x => bool_decide (normalize_product x = Some x))
                  (map snd RULES) = true) as Hall by (vm_compute; reflexivity).
  rewrite forallb_forall in Hall.
  pose proof (Hall t Hin) as Ht. apply bool_decide_eq_true in Ht. exact Ht.
Qed.

(** C3, as amended: [normalize_product] returns the target of the first rule
    of [RULES], read top-down, whose pattern is found in the pre-cleaned
    text, and [None] when none is found.  Consequently a text whose
    pre-cleaned form has 白色粉末 followed, on the same line, by the sweet
    marker T or 甜 is classified as 白色粉末甜味优镁粉 and not as the
    generic 白色粉末优镁粉, although the generic catch-all pattern is found
    in it as well. *)
Theorem normalize_product_first_match :
  (forall name : text,
     first_match RULES (preclean name) (normalize_product name)) /\
  (forall (name a b c : text) (m : N),
     preclean name = a ++ u "白色粉末" ++ b ++ m :: c ->
     forallb dot b = true ->
     [m] = u "T" \/ [m] = u "甜" ->
     normalize_product name = Some (u "白色粉末甜味优镁粉") /\
     normalize_product name <> Some (u "白色粉末优镁粉") /\
     re_search (seqs [Lit (u "白色粉末"); any_star]) (preclean name) = true).
Proof.
  split.
  - intros name. apply first_rule_first_match.
  - intros name a b c m Hs Hb Hm.
    assert (re_search (seqs [Lit (u "白色粉末"); any_star;
                             Alt (Lit (u "T")) (Lit (u "甜")); any_star])
                      (preclean name) = true) as Hsweet.
    { apply re_search_spec. exists a, (u "白色粉末" ++ b ++ [m]), c. split.
      - rewrite Hs, <- !app_assoc. reflexivity.
      - cbn [seqs lang any_star]. exists (u "白色粉末"), (b ++ [m]).
        split; [reflexivity | split; [reflexivity |]].
        exists b, [m]. split; [reflexivity | split; [exact Hb |]].
        exists [m], []. split; [reflexivity | split; [tauto | reflexivity]]. }
    assert (normalize_product name = Some (u "白色粉末甜味优镁粉")) as Hn.
    { unfold normalize_product, RULES. cbn [first_rule]. rewrite Hsweet.
      reflexivity. }
    split; [exact Hn | split].
    + rewrite Hn. vm_compute. discriminate.
    + apply re_search_spec. exists a, (u "白色粉末" ++ b), (m :: c). split.
      * rewrite Hs, <- !app_assoc. reflexivity.
      * cbn [seqs lang any_star]. exists (u "白色粉末"), b. tauto.
Qed.

Lemma normalize_product_first_match_witness :
  normalize_product (u "白色粉末优镁粉T级 20吨") = Some (u "白色粉末甜味优镁粉") /\
  normalize_product (u "白色粉末优镁粉T级 20吨") <> Some (u "白色粉末优镁粉") /\
  re_search (seqs [Lit (u "白色粉末"); any_star])
            (preclean (u "白色粉末优镁粉T级 20吨")) = true.
Proof.
  apply (proj2 normalize_product_first_match
           (u "白色粉末优镁粉T级 20吨") [] (u "优镁粉") (u "级 20吨") 84%N).
  - vm_compute. reflexivity.
  - vm_compute. reflexivity.
  - left. vm_compute. reflexivity.
Defined.

(** C3 as stated fails: a white-powder text that contains the sweet marker
    before 白色粉末 is classified as the generic white category. *)
Lemma sweet_marker_before_white_is_generic :
  contains (u "白色粉末") (u "甜味白色粉末优镁粉20吨") = true /\
  contains (u "甜") (u "甜味白色粉末优镁粉20吨") = true /\
  normalize_product (u "甜味白色粉末优镁粉20吨") = Some (u "白色粉末优镁粉") /\
  normalize_product (u "甜味白色粉末优镁粉20吨") <> Some (u "白色粉末甜味优镁粉").
Proof.
  repeat split; try (vm_compute; reflexivity).
  vm_compute. discriminate.
Qed.

(** C4: each of the ten names of [PREFERRED_ORDER] is normalised to itself,
    so normalising twice gives what normalising once gives, both for
    [normalize_product] and for the [normalize_product(x) or str(x)] of the
    stock table. *)
Theorem normalize_product_idempotent :
  Forall (fun c => normalize_product c = Some c) PREFERRED_ORDER /\
  (forall name : text,
     normalize_product name ≫= normalize_product = normalize_product name) /\
  (forall name : text,
     normalize_or_self (normalize_or_self name) = normalize_or_self name).
Proof.
  split; [| split].
  - apply Forall_forall. intros c Hc. apply list_elem_of_In in Hc.
    assert (forallb (fun x => bool_decide (normalize_product x = Some x))
                    PREFERRED_ORDER = true) as Hall by (vm_compute; reflexivity).
    rewrite forallb_forall in Hall.
    pose proof (Hall c Hc) as Ht. apply bool_decide_eq_true in Ht. exact Ht.
  - intros name. destruct (normalize_product name) as [t|] eqn:Hn; simpl.
    + apply rule_targets_fixed. exact (first_rule_target _ _ _ Hn).
    + reflexivity.
  - intros name. unfold normalize_or_self.
    destruct (normalize_product name) as [[|x t]|] eqn:Hn.
    + rewrite Hn. reflexivity.
    + rewrite (rule_targets_fixed (x :: t)); [reflexivity |].
      exact (first_rule_target _ _ _ Hn).
    + rewrite Hn. reflexivity.
Qed.

(** ** Quantities *)

Lemma digits_val_some (s : text) (acc : N) :
  forallb ascii_digit s = true -> exists n, digits_val acc s = Some n.
Proof.
  revert acc. induction s as [|c s IH]; intros acc; simpl.
  - eauto.
  - intros H. apply andb_prop in H as [Hc Hs]. rewrite Hc. apply IH, Hs.
Qed.

Lemma split_dot_digits (s : text) :
  forallb ascii_digit s = true -> split_dot s = (s, None).
Proof.
  induction s as [|c s IH]; simpl; [reflexivity |].
  intros H. apply andb_prop in H as [Hc Hs].
  destruct (N.eqb_spec c 46) as [->|_]; [discriminate |].
  rewrite (IH Hs). reflexivity.
Qed.

Lemma split_dot_digits_dot (s f : text) :
  forallb ascii_digit s = true -> split_dot (s ++ 46%N :: f) = (s, Some f).
Proof.
  induction s as [|c s IH]; simpl; [reflexivity |].
  intros H. apply andb_prop in H as [Hc Hs].
  destruct (N.eqb_spec c 46) as [->|_]; [discriminate |].
  rewrite (IH Hs). reflexivity.
Qed.

(** [float] accepts every text of the number group. *)
Lemma py_float_qty_group (g : text) :
  lang QTY_GROUP g -> exists q, py_float g = Some q.
Proof.
  unfold QTY_GROUP. cbn [lang].
  intros (ip & rest & -> & [Hne Hip] & [-> | (d & fp & -> & -> & [Hnf Hfp])]).
  - rewrite app_nil_r. unfold py_float. rewrite (split_dot_digits _ Hip).
    destruct ip as [|c ip]; [contradiction |].
    destruct (digits_val_some (c :: ip) 0 Hip) as [n ->]. eauto.
  - unfold py_float. change (u "." ++ fp) with (46%N :: fp).
    rewrite (split_dot_digits_dot _ _ Hip).
    destruct ip as [|c ip]; [contradiction |].
    destruct fp as [|c' fp]; [contradiction |].
    destruct (digits_val_some (c :: ip) 0 Hip) as [n ->].
    destruct (digits_val_some (c' :: fp) 0 Hfp) as [f ->]. eauto.
Qed.

Lemma first_with_group (g rest : regex) (s grp e2 : text) (es : list text) :
  (forall e, In e es -> In e (rmatch g s)) ->
  first_with rest s es = Some (grp, e2) -> lang g grp.
Proof.
  induction es as [|e es IH]; simpl; [discriminate |]. intros Hsub.
  destruct (rmatch rest e) as [|e2' l].
  - apply IH. intros e' He'. apply Hsub. right; exact He'.
  - intros [= <- <-].
    destruct (proj1 (rmatch_spec g s e) (Hsub e (or_introl eq_refl)))
      as (p & -> & Hp).
    rewrite length_app.
    replace (length p + length e - length e)%nat with (length p) by lia.
    rewrite take_app_length. exact Hp.
Qed.

Lemma search_group1_lang (g rest : regex) (s grp : text) :
  search_group1 g rest s = Some grp -> lang g grp.
Proof.
  induction s as [|c s IH]; simpl.
  - destruct (match_group1 g rest []) as [[grp' e]|] eqn:Hm; [|discriminate].
    intros [= <-]. exact (first_with_group g rest _ _ _ _ (fun _ H => H) Hm).
  - destruct (match_group1 g rest (c :: s)) as [[grp' e]|] eqn:Hm; [|exact IH].
    intros [= <-]. exact (first_with_group g rest _ _ _ _ (fun _ H => H) Hm).
Qed.

(** The [float(m.group(1))] of [split_product_items] cannot raise. *)
Lemma qty_group_float (p g : text) :
  search_group1 QTY_GROUP QTY_REST p = Some g -> exists q, py_float g = Some q.
Proof. intros H. exact (py_float_qty_group g (search_group1_lang _ _ _ _ H)). Qed.

Lemma py_float_nonneg (s : text) (q : Q) : py_float s = Some q -> (0 <= q)%Q.
Proof.
  unfold py_float. destruct (split_dot s) as [[|c ip] [fp|]]; try discriminate.
  - destruct fp as [|c' fp]; [discriminate |].
    destruct (digits_val 0 (c :: ip)) as [n|]; [|discriminate].
    destruct (digits_val 0 (c' :: fp)) as [f|]; [|discriminate].
    intros [= <-]. unfold Qle. cbn [Qnum Qden].
    assert (0 <= 10 ^ Z.of_nat (length (c' :: fp)))%Z by (apply Z.pow_nonneg; lia).
    nia.
  - destruct (digits_val 0 (c :: ip)) as [n|]; [|discriminate].
    intros [= <-]. unfold Qle, inject_Z. cbn [Qnum Qden]. lia.
Qed.

(** What [split_product_items] guarantees of the items it emits: the
    category is the target of some rule, the quantity is not negative, and
    the dates and the carrier are those of the row. *)
Lemma item_of_part_inv (row : TrackRow) (part : text) (it : Item) :
  item_of_part row part = Some it ->
  In (product it) (map snd RULES) /\ (0 <= qty it)%Q /\
  ship it = row_ship row /\ eta_port it = row_eta_port row /\
  eta_dest it = row_eta_dest row /\ carrier it = row_carrier row.
Proof.
  unfold item_of_part.
  destruct (search_group1 QTY_GROUP QTY_REST (strip part)) as [g|]; [|discriminate].
  destruct (py_float g) as [q|] eqn:Hq; [|discriminate].
  destruct (normalize_product (strip part)) as [base|] eqn:Hn; [|discriminate].
  intros [= <-]. cbn [product qty ship eta_port eta_dest carrier]. repeat split.
  - exact (first_rule_target _ _ _ Hn).
  - exact (py_float_nonneg _ _ Hq).
Qed.

Lemma split_product_items_inv (row : TrackRow) (it : Item) :
  In it (split_product_items row) ->
  In (product it) (map snd RULES) /\ (0 <= qty it)%Q.
Proof.
  unfold split_product_items. intros Hin. apply list_elem_of_In in Hin.
  apply list_elem_of_omap in Hin as (part & _ & Hpart).
  apply item_of_part_inv in Hpart. tauto.
Qed.

Lemma items_df_qty_nonneg (track : list TrackRow) (it : Item) :
  In it (items_df track) -> (0 <= qty it)%Q.
Proof.
  unfold items_df. rewrite in_flat_map. intros (row & _ & Hin).
  apply split_product_items_inv in Hin. tauto.
Qed.

(** Every rule target but 白色粉末优乐粉 is one of the ten preferred
    names. *)
Lemma rule_targets_preferred (t : text) :
  In t (map snd RULES) ->
  t = u "白色粉末优乐粉" \/ isin t PREFERRED_ORDER = true.
Proof.
  intros Hin.
  assert (forallb (fun x => text_eqb x (u "白色粉末优乐粉")
                            || isin x PREFERRED_ORDER)
                  (map snd RULES) = true) as Hall by (vm_compute; reflexivity).
  rewrite forallb_forall in Hall. pose proof (Hall t Hin) as Ht.
  apply orb_prop in Ht as [Ht | Ht]; [left | right; exact Ht].
  apply bool_decide_eq_true in Ht. exact Ht.
Qed.

(** ** Timestamps against dates *)

Lemma to_datetime_le (d : date) (t : Timestamp) :
  to_datetime d <= t <-> d <= ts_date t.
Proof.
  unfold to_datetime, ts_date, NS_PER_DAY.
  pose proof (Z.div_mod t 86400000000000 ltac:(lia)) as Hdm.
  pose proof (Z.mod_pos_bound t 86400000000000 ltac:(lia)) as Hb.
  lia.
Qed.

Lemma ts_date_to_datetime (d : date) : ts_date (to_datetime d) = d.
Proof. unfold ts_date, to_datetime, NS_PER_DAY. apply Z.div_mul. lia. Qed.

Lemma ts_date_normalize (t : Timestamp) : ts_date (ts_normalize t) = ts_date t.
Proof. unfold ts_normalize. apply ts_date_to_datetime. Qed.

Lemma delta_days_normalize (a b : Timestamp) :
  delta_days (ts_normalize a) (ts_normalize b) = ts_date a - ts_date b.
Proof.
  unfold delta_days, ts_normalize, to_datetime.
  rewrite <- Z.mul_sub_distr_r. apply Z.div_mul. unfold NS_PER_DAY. lia.
Qed.

Lemma ts_date_add_days (t : Timestamp) (n : Z) :
  ts_date (add_days t n) = ts_date t + n.
Proof.
  unfold ts_date, add_days. apply Z.div_add. unfold NS_PER_DAY. lia.
Qed.

(** A time stamp is not after midnight of [d] exactly when it is on an
    earlier day, or at the very midnight that starts [d]. *)
Lemma le_to_datetime (d : date) (t : Timestamp) :
  t <= to_datetime d <-> ts_date t < d \/ t = to_datetime d.
Proof.
  unfold to_datetime, ts_date, NS_PER_DAY.
  pose proof (Z.div_mod t 86400000000000 ltac:(lia)) as Hdm.
  pose proof (Z.mod_pos_bound t 86400000000000 ltac:(lia)) as Hb.
  lia.
Qed.

(** ** The calendar *)

(** [mkdate] gives back the day of which [civil] is the year, the month and
    the day. *)
Lemma mkdate_civil (z : date) :
  match civil z with (y, m, d) => mkdate y m d = z end.
Proof.
  unfold civil.
  set (z' := z + 719468).
  set (era := z' / 146097).
  set (doe := z' - era * 146097).
  assert (0 <= doe < 146097) as Hdoe by (subst doe era; div_lia).
  assert (z = era * 146097 + doe - 719468) as Hz by (subst doe z'; lia).
  clearbody doe era. clear z'. subst z.
  set (yoe := (doe - doe / 1460 + doe / 36524 - doe / 146096) / 365).
  assert (0 <= yoe <= 399) as Hyoe by (subst yoe; div_lia).
  set (doy := doe - (365 * yoe + yoe / 4 - yoe / 100)).
  assert (0 <= doy <= 365) as Hdoy by (subst doy yoe; div_lia).
  assert (doe = yoe * 365 + yoe / 4 - yoe / 100 + doy) as Hdoe'
    by (subst doy; lia).
  clearbody doy yoe. subst doe.
  set (mp := (5 * doy + 2) / 153).
  assert (0 <= mp <= 11) as Hmp by (subst mp; div_lia).
  assert (doy = (153 * mp + 2) / 5 + (doy - (153 * mp + 2) / 5 + 1) - 1)
    as Hd by lia.
  set (d := doy - (153 * mp + 2) / 5 + 1) in *.
  clearbody d mp. unfold mkdate.
  destruct (mp <? 10) eqn:Hlt; [apply Z.ltb_lt in Hlt | apply Z.ltb_ge in Hlt].
  - replace (mp + 3 <=? 2) with false by (symmetry; apply Z.leb_gt; lia).
    replace (2 <? mp + 3) with true by (symmetry; apply Z.ltb_lt; lia).
    replace (mp + 3 - 3) with mp by lia. div_lia.
  - replace (mp - 9 <=? 2) with true by (symmetry; apply Z.leb_le; lia).
    replace (2 <? mp - 9) with false by (symmetry; apply Z.ltb_ge; lia).
    replace (mp - 9 + 9) with mp by lia.
    replace (yoe + era * 400 + 1 - 1) with (yoe + era * 400) by lia. div_lia.
Qed.

Lemma civil_month_range (z : date) :
  match civil z with (_, m, _) => 1 <= m <= 12 end.
Proof.
  unfold civil.
  set (z' := z + 719468).
  set (era := z' / 146097).
  set (doe := z' - era * 146097).
  assert (0 <= doe < 146097) as Hdoe by (subst doe era; div_lia).
  clearbody doe. clear z' era.
  set (yoe := (doe - doe / 1460 + doe / 36524 - doe / 146096) / 365).
  set (doy := doe - (365 * yoe + yoe / 4 - yoe / 100)).
  assert (0 <= doy <= 365) as Hdoy by (subst doy yoe; div_lia).
  clearbody doy.
  destruct ((5 * doy + 2) / 153 <? 10) eqn:H;
    [apply Z.ltb_lt in H | apply Z.ltb_ge in H]; div_lia.
Qed.

(** The first day of the next month is at least 28 days later. *)
Lemma month_step (y m : Z) :
  1 <= m <= 12 ->
  28 <= (if m =? 12 then mkdate (y + 1) 1 1 else mkdate y (m + 1) 1)
        - mkdate y m 1.
Proof.
  intros Hm.
  assert (m = 1 \/ m = 2 \/ m = 3 \/ m = 4 \/ m = 5 \/ m = 6 \/ m = 7 \/
          m = 8 \/ m = 9 \/ m = 10 \/ m = 11 \/ m = 12) as Hcases by lia.
  repeat (destruct Hcases as [-> | Hcases];
          [unfold mkdate; simpl; div_lia |]).
  subst m. unfold mkdate. simpl. div_lia.
Qed.

Lemma months_from_fuel (fuel k : nat) (y m : Z) (window_end : date) :
  1 <= m <= 12 ->
  window_end - mkdate y m 1 < 28 * Z.of_nat fuel ->
  months_from (fuel + k) y m window_end = months_from fuel y m window_end.
Proof.
  revert y m. induction fuel as [|fuel IH]; intros y m Hm Hfuel.
  - destruct k as [|k]; [reflexivity |]. cbn [Nat.add months_from].
    destruct (Z.leb_spec (mkdate y m 1) window_end); [lia | reflexivity].
  - cbn [Nat.add months_from].
    destruct (Z.leb_spec (mkdate y m 1) window_end); [|reflexivity].
    f_equal. pose proof (month_step y m Hm) as Hstep.
    destruct (Z.eqb_spec m 12) as [->|Hne].
    + apply IH; lia.
    + apply IH; lia.
Qed.

(** The [while] loop of the months ends within the rounds that [months]
    allows: more rounds add no month. *)
Lemma months_fuel_enough (window_start window_end : date) (k : nat) :
  match civil window_start with
  | (y, m, _) =>
    months_from (S (Z.to_nat (window_end - mkdate y m 1)) + k) y m window_end
    = months window_start window_end
  end.
Proof.
  unfold months. pose proof (civil_month_range window_start) as Hm.
  destruct (civil window_start) as [[y m] d].
  apply months_from_fuel; [exact Hm | lia].
Qed.

(** ** In-transit items *)

Lemma intransit_df_In (today : date) (items : list Item) (it : Item) :
  In it (intransit_df today items) <->
  In it items /\ is_intransit today it = true.
Proof. unfold intransit_df. apply filter_In. Qed.

(** C2: an extracted item is in transit exactly when its destination arrival
    (预计到货时间) is unknown or falls on [today] or a later day; an item
    without destination arrival is always in transit. *)
Theorem intransit_df_spec (today : date) (items : list Item) (it : Item) :
  In it (intransit_df today items) <->
  In it items /\
  (eta_dest it = None \/ exists t, eta_dest it = Some t /\ today <= ts_date t).
Proof.
  rewrite intransit_df_In. unfold is_intransit.
  destruct (eta_dest it) as [t|].
  - rewrite Z.leb_le, to_datetime_le. split.
    + intros [Hin Hle]. split; [exact Hin | right; eauto].
    + intros [Hin [[=] | (t' & [= <-] & Hle)]]. tauto.
  - split; [intros [Hin _]; tauto | intros [Hin _]; tauto].
Qed.

(** ** Sums by group *)

Lemma fold_left_Qplus (l : list Q) (a : Q) :
  (fold_left Qplus l a == a + Qsum l)%Q.
Proof.
  unfold Qsum. revert a. induction l as [|x l IH]; intros a; simpl.
  - ring.
  - rewrite (IH (a + x)%Q), (IH (0 + x)%Q). ring.
Qed.

Lemma Qsum_cons (x : Q) (l : list Q) : (Qsum (x :: l) == x + Qsum l)%Q.
Proof. unfold Qsum at 1. simpl. rewrite fold_left_Qplus. ring. Qed.

Lemma Qsum_app (l1 l2 : list Q) : (Qsum (l1 ++ l2) == Qsum l1 + Qsum l2)%Q.
Proof.
  induction l1 as [|x l1 IH]; simpl.
  - unfold Qsum at 2. simpl. ring.
  - rewrite !Qsum_cons, IH. ring.
Qed.

Lemma Qsum_nonneg (l : list Q) :
  (forall x, In x l -> (0 <= x)%Q) -> (0 <= Qsum l)%Q.
Proof.
  induction l as [|x l IH]; intros Hl.
  - unfold Qsum. simpl. apply Qle_refl.
  - rewrite Qsum_cons.
    apply (Qle_trans _ (0 + 0)%Q); [rewrite Qplus_0_l; apply Qle_refl |].
    apply Qplus_le_compat; [apply Hl; left; reflexivity |].
    apply IH. intros y Hy. apply Hl. right; exact Hy.
Qed.

Section GroupBy.

Context `{Countable K} (key : Item -> K).

Lemma fold_group_add (k : K) (l : list Item) (m : gmap K Q) :
  (default 0 (fold_left (group_add key) l m !! k)
   == default 0 (m !! k) + Qsum (group_qty key k l))%Q.
Proof.
  revert m. induction l as [|it l IH]; intros m; simpl.
  - unfold group_qty, Qsum. simpl. ring.
  - rewrite IH. unfold group_add, group_qty. simpl.
    destruct (decide (key it = k)) as [Heq|Hne].
    + rewrite (bool_decide_eq_true_2 _ Heq). simpl. rewrite Qsum_cons.
      rewrite Heq, lookup_insert_eq. simpl. ring.
    + rewrite (bool_decide_eq_false_2 _ Hne).
      rewrite lookup_insert_ne by exact Hne. reflexivity.
Qed.

(** [groupby(key).sum()] holds, for each key, the sum of the quantities of
    its rows. *)
Lemma groupby_sum_lookup (k : K) (l : list Item) :
  (default 0 (groupby_sum key l !! k) == Qsum (group_qty key k l))%Q.
Proof.
  unfold groupby_sum. rewrite fold_group_add, lookup_empty. simpl. ring.
Qed.

Lemma fold_group_add_dom (k : K) (l : list Item) (m : gmap K Q) :
  is_Some (fold_left (group_add key) l m !! k) <->
  is_Some (m !! k) \/ exists it, In it l /\ key it = k.
Proof.
  revert m. induction l as [|it l IH]; intros m; simpl.
  - split; [tauto | intros [Hm | (it & [] & _)]; exact Hm].
  - rewrite IH. unfold group_add. rewrite lookup_insert_is_Some. split.
    + intros [[Heq | [_ Hm]] | (it' & Hin & Hk)]; eauto 6.
    + intros [Hm | (it' & [<- | Hin] & Hk)]; eauto 6.
      destruct (decide (key it = k)); eauto 6.
Qed.

(** A key is in the result exactly when it has a row. *)
Lemma groupby_sum_dom (k : K) (l : list Item) :
  is_Some (groupby_sum key l !! k) <-> exists it, In it l /\ key it = k.
Proof.
  unfold groupby_sum. rewrite fold_group_add_dom, lookup_empty. split.
  - intros [[x [=]] | Hex]. exact Hex.
  - eauto.
Qed.

End GroupBy.

(** ** The summary table *)

Lemma arrives_by_spec (cutoff : date) (it : Item) :
  arrives_by cutoff it = true <->
  exists t, eta_col it = Some t /\ (ts_date t < cutoff \/ t = to_datetime cutoff).
Proof.
  unfold arrives_by. destruct (eta_col it) as [t|].
  - rewrite Z.leb_le, le_to_datetime. split; [eauto |].
    intros (t' & [= <-] & H). exact H.
  - split; [discriminate | intros (t & [=] & _)].
Qed.

Lemma arrives_by_mono (c1 c2 : date) (it : Item) :
  c1 <= c2 -> arrives_by c1 it = true -> arrives_by c2 it = true.
Proof.
  unfold arrives_by, to_datetime, NS_PER_DAY. intros Hc.
  destruct (eta_col it) as [t|]; [|discriminate].
  rewrite !Z.leb_le. nia.
Qed.

(** What each row of the summary holds: the in-transit total is the sum over
    all in-transit items of the category; the projected stock is the actual
    stock plus the sum over those of them whose arrival, the warehouse one
    or else the port one, is not after midnight of the cut-off day. *)
Lemma summary_df_row (stock : list StockRow) (track : list TrackRow)
    (today cutoff : date) (r : SummaryRow) :
  In r (summary_df stock track today cutoff) ->
  In (s_product r) PREFERRED_ORDER /\
  (s_projected r ==
     s_actual r +
     Qsum (group_qty product (s_product r)
             (List.filter (arrives_by cutoff)
                          (intransit_df today (items_df track)))))%Q /\
  (s_intransit r ==
     Qsum (group_qty product (s_product r)
             (intransit_df today (items_df track))))%Q.
Proof.
  unfold summary_df. rewrite in_map_iff. intros (c & <- & Hc).
  unfold summary_products in Hc. apply filter_In in Hc as [Hc _].
  cbn [summary_row s_product s_projected s_actual s_intransit].
  split; [exact Hc | split].
  - unfold arrive_by_cutoff. rewrite groupby_sum_lookup. reflexivity.
  - unfold intransit_sum. apply groupby_sum_lookup.
Qed.

Lemma fold_stock_add_dom (l : list StockRow) (m : gmap (list N) StockAgg)
    (k : text) :
  is_Some (fold_left stock_add l m !! k) <->
  is_Some (m !! k) \/ exists r, In r l /\ stock_product r = k.
Proof.
  revert m. induction l as [|r l IH]; intros m; simpl.
  - split; [tauto | intros [Hm | (r & [] & _)]; exact Hm].
  - rewrite IH. unfold stock_add. rewrite lookup_insert_is_Some. split.
    + intros [[Heq | [_ Hm]] | (r' & Hin & Hk)]; eauto 6.
    + intros [Hm | (r' & [<- | Hin] & Hk)]; eauto 6.
      destruct (decide (stock_product r = k)); eauto 6.
Qed.

(** The categories of the summary: those of [PREFERRED_ORDER] that have a
    stock row or an in-transit item with a label. *)
Lemma summary_df_products (stock : list StockRow) (track : list TrackRow)
    (today cutoff : date) (c : text) :
  In c (map s_product (summary_df stock track today cutoff)) <->
  In c PREFERRED_ORDER /\
  ((exists r, In r stock /\ stock_product r = c) \/
   (exists it, In it (intransit_df today (items_df track)) /\
               product it = c /\ label_for it <> None)).
Proof.
  unfold summary_df. rewrite List.map_map. cbn [summary_row s_product].
  rewrite List.map_id. unfold summary_products.
  rewrite filter_In, bool_decide_eq_true, elem_of_union, elem_of_dom.
  unfold stock_df, lab_products, labelled.
  rewrite fold_stock_add_dom, lookup_empty, elem_of_list_to_set.
  rewrite list_elem_of_In, in_map_iff.
  split; intros [Hc Hrow]; (split; [exact Hc |]).
  - destruct Hrow as [[[x [=]] | (r & Hr & Hk)] | (it & Hk & Hit)].
    + left. apply filter_In in Hr as [Hr _]. eauto.
    + right. apply filter_In in Hit as [Hit Hlab]. exists it.
      repeat split; [exact Hit | exact Hk |].
      destruct (label_for it); [discriminate | discriminate].
  - destruct Hrow as [(r & Hr & Hk) | (it & Hit & Hk & Hlab)].
    + left. right. exists r. split; [|exact Hk]. apply filter_In.
      split; [exact Hr |]. rewrite Hk. unfold isin.
      apply existsb_exists. exists c. split; [exact Hc |].
      apply bool_decide_eq_true. reflexivity.
    + right. exists it. split; [exact Hk |]. apply filter_In.
      split; [exact Hit |]. destruct (label_for it); [reflexivity | contradiction].
Qed.

Lemma Qsum_filter_mono (p q g : Item -> bool) (l : list Item) :
  (forall it, In it l -> (0 <= qty it)%Q) ->
  (forall it, p it = true -> q it = true) ->
  (Qsum (map qty (List.filter g (List.filter p l)))
   <= Qsum (map qty (List.filter g (List.filter q l))))%Q.
Proof.
  intros Hpos Hpq. induction l as [|x l IH]; [apply Qle_refl |].
  assert (IH' := IH (fun it H => Hpos it (or_intror H))).
  assert (0 <= qty x)%Q as Hx by (apply Hpos; left; reflexivity).
  cbn [List.filter]. destruct (p x) eqn:Hp.
  - rewrite (Hpq x Hp). cbn [List.filter].
    destruct (g x); cbn [map]; [rewrite !Qsum_cons |]; [|exact IH'].
    apply Qplus_le_compat; [apply Qle_refl | exact IH'].
  - destruct (q x); [|exact IH']. cbn [List.filter].
    destruct (g x); cbn [map]; [rewrite Qsum_cons |]; [|exact IH'].
    apply (Qle_trans _ (0 + Qsum (map qty (List.filter g (List.filter q l))))%Q).
    + rewrite Qplus_0_l. exact IH'.
    + apply Qplus_le_compat; [exact Hx | apply Qle_refl].
Qed.

(** C5: with the two tables and [today] fixed, a later cut-off date never
    lowers the projected stock: the two summaries list the same categories
    in the same order, and row by row the projection for [c1] is at most
    the projection for [c2]. *)
Theorem projection_monotone (stock : list StockRow) (track : list TrackRow)
    (today c1 c2 : date) :
  c1 <= c2 ->
  Forall2 (fun r1 r2 =>
             s_product r1 = s_product r2 /\ (s_projected r1 <= s_projected r2)%Q)
          (summary_df stock track today c1)
          (summary_df stock track today c2).
Proof.
  intros Hc. unfold summary_df.
  induction (summary_products (stock_df stock)
               (intransit_df today (items_df track))) as [|c cs IH];
    cbn [map]; constructor; [|exact IH].
  cbn [summary_row s_product s_projected]. split; [reflexivity |].
  apply Qplus_le_compat; [apply Qle_refl |].
  unfold arrive_by_cutoff. rewrite !groupby_sum_lookup. unfold group_qty.
  apply Qsum_filter_mono.
  - intros it Hit. apply intransit_df_In in Hit as [Hit _].
    exact (items_df_qty_nonneg _ _ Hit).
  - intros it. apply arrives_by_mono, Hc.
Qed.

Lemma projection_monotone_witness :
  Forall2 (fun r1 r2 =>
             s_product r1 = s_product r2 /\ (s_projected r1 <= s_projected r2)%Q)
          (summary_df [stock_white] [row_no_port] (mkdate 2024 3 1) (mkdate 2024 3 4))
          (summary_df [stock_white] [row_no_port] (mkdate 2024 3 1) (mkdate 2024 3 5)).
Proof.
  apply (projection_monotone [stock_white] [row_no_port]
           (mkdate 2024 3 1) (mkdate 2024 3 4) (mkdate 2024 3 5)).
  apply Z.leb_le. vm_compute. reflexivity.
Defined.

(** For arrivals given as plain dates (midnight time stamps) the script and
    the specification select the same items. *)
Lemma arrives_by_dates (cutoff : date) (it : Item) :
  (forall t, eta_col it = Some t -> t = to_datetime (ts_date t)) ->
  arrives_by cutoff it = spec_arrives_by cutoff it.
Proof.
  unfold arrives_by, spec_arrives_by. intros Hmid.
  destruct (eta_col it) as [t|]; [|reflexivity].
  rewrite (Hmid t eq_refl) at 1. unfold to_datetime, NS_PER_DAY.
  destruct (Z.leb_spec (ts_date t) cutoff); [apply Z.leb_le | apply Z.leb_gt]; lia.
Qed.

(** When every arrival of the tracking table is a plain date, each row of
    the summary projects what the specification says. *)
Lemma summary_df_projection_dates (stock : list StockRow)
    (track : list TrackRow) (today cutoff : date) (r : SummaryRow) :
  (forall it t, In it (items_df track) -> eta_col it = Some t ->
                t = to_datetime (ts_date t)) ->
  In r (summary_df stock track today cutoff) ->
  (s_projected r ==
     spec_projected (s_actual r) cutoff (s_product r)
                    (intransit_df today (items_df track)))%Q.
Proof.
  intros Hdates Hr. apply summary_df_row in Hr as (_ & Hproj & _).
  rewrite Hproj. unfold spec_projected.
  rewrite (List.filter_ext_in (arrives_by cutoff) (spec_arrives_by cutoff));
    [reflexivity |].
  intros it Hit. apply arrives_by_dates. intros t Ht.
  apply intransit_df_In in Hit as [Hit _]. exact (Hdates it t Hit Ht).
Qed.

(** C1 on a failing input: 20 t of white powder are due at the warehouse on
    the cut-off day 2024-03-10 at 15:00.  The item is in transit and its
    effective arrival date is the cut-off date, so the projection of the
    specification is 100 + 20; the summary row of the script counts the 20 t
    in transit but projects 100. *)
Theorem projection_skips_arrival_during_cutoff_day :
  map (fun it => (product it, qty it, ts_date <$> eta_col it))
      (intransit_df (mkdate 2024 3 1) (items_df [row_afternoon]))
  = [(u "白色粉末优镁粉", 20%Q, Some (mkdate 2024 3 10))] /\
  map (fun r => (s_product r, s_actual r, s_intransit r, s_projected r))
      (summary_df [stock_white] [row_afternoon] (mkdate 2024 3 1) (mkdate 2024 3 10))
  = [(u "白色粉末优镁粉", 100%Q, 20%Q, 100%Q)] /\
  (spec_projected 100 (mkdate 2024 3 10) (u "白色粉末优镁粉")
     (intransit_df (mkdate 2024 3 1) (items_df [row_afternoon])) == 120)%Q.
Proof. run_model. Qed.

(** The worked example: with the stock row 白色粉末 (100 counted, 120 on
    record), the row [row_scenario], today 2024-03-01 and the cut-off
    2024-03-10, the summary has the white row with 100 in stock, 20 in
    transit, 20 arriving and 120 projected, then the brown row with 0, 5, 5
    and 5; the one label is 装货日期2024-03-01（4天到）, with 20 t of white
    powder. *)
Lemma worked_example :
  map (fun r => (s_product r, s_actual r, s_intransit r, s_arrive r,
                 s_projected r, s_recorded r))
      (summary_df [stock_white] [row_scenario] (mkdate 2024 3 1) (mkdate 2024 3 10))
  = [(u "白色粉末优镁粉", 100%Q, 20%Q, 20%Q, 120%Q, 120%Q);
     (u "棕色1号优镁粉", 0%Q, 5%Q, 5%Q, 5%Q, 0%Q)] /\
  lab_tbl (intransit_df (mkdate 2024 3 1) (items_df [row_scenario]))
    !! (u "白色粉末优镁粉", u "装货日期2024-03-01（4天到）") = Some 20%Q.
Proof. run_model. Qed.

(** ** Shipment-date labels *)

(** In [label_for] the [or] never reaches the warehouse arrival: the label
    needs the shipping date and the port arrival, and counts the days
    between their dates. *)
Lemma label_for_spec (it : Item) :
  label_for it =
  match ship it, eta_port it with
  | Some s, Some e => Some (label_text (ts_date s) (ts_date e - ts_date s))
  | _, _ => None
  end.
Proof.
  unfold label_for, py_or, ts_truthy.
  destruct (ship it) as [s|], (eta_port it) as [e|]; try reflexivity.
  rewrite delta_days_normalize. reflexivity.
Qed.

(** The label is the one of the specification unless the port arrival is
    missing while the warehouse arrival is known. *)
Lemma label_for_agrees (it : Item) :
  eta_port it <> None \/ eta_dest it = None ->
  label_for it = spec_label_for it.
Proof.
  rewrite label_for_spec. unfold spec_label_for, spec_eta_port.
  destruct (eta_port it) as [e|]; [reflexivity |].
  intros [Hport | ->]; [contradiction | reflexivity].
Qed.

(** An item without label is in no label bucket and still in the in-transit
    total of its category. *)
Lemma unlabelled_item (l1 l2 : list Item) (it : Item) :
  label_for it = None ->
  lab_tbl (l1 ++ it :: l2) = lab_tbl (l1 ++ l2) /\
  (default 0 (intransit_sum (l1 ++ it :: l2) !! product it)
   == qty it + default 0 (intransit_sum (l1 ++ l2) !! product it))%Q.
Proof.
  intros Hlab. split.
  - unfold lab_tbl, labelled. rewrite !List.filter_app. cbn [List.filter].
    rewrite Hlab. reflexivity.
  - unfold intransit_sum. rewrite !groupby_sum_lookup. unfold group_qty.
    rewrite !List.filter_app, !List.map_app, !Qsum_app. cbn [List.filter].
    rewrite bool_decide_eq_true_2 by reflexivity. cbn [map].
    rewrite Qsum_cons. ring.
Qed.

(** C7 on a failing input: an in-transit item shipped on 2024-03-01 with no
    port arrival and the warehouse arrival 2024-03-05.  The fall-back of the
    specification gives the label 装货日期2024-03-01（4天到）; [label_for]
    gives none, the label table stays empty, and the 20 t are in the
    in-transit total only. *)
Theorem label_for_without_port_arrival :
  map (fun it => (ts_date <$> ship it, eta_port it, ts_date <$> eta_dest it))
      (intransit_df (mkdate 2024 3 1) (items_df [row_no_port]))
  = [(Some (mkdate 2024 3 1), None, Some (mkdate 2024 3 5))] /\
  map spec_label_for (intransit_df (mkdate 2024 3 1) (items_df [row_no_port]))
  = [Some (u "装货日期2024-03-01（4天到）")] /\
  map label_for (intransit_df (mkdate 2024 3 1) (items_df [row_no_port]))
  = [None] /\
  lab_tbl (intransit_df (mkdate 2024 3 1) (items_df [row_no_port])) = ∅ /\
  intransit_sum (intransit_df (mkdate 2024 3 1) (items_df [row_no_port]))
    !! u "白色粉末优镁粉" = Some 20%Q.
Proof. run_model. Qed.

(** ** Calendar events *)

(** In [event_of] the [or] never reaches the port arrival, so the full
    interval ends on [end_full_of]. *)
Lemma event_of_inv (ws we : date) (r : Item) (ev : Event) :
  event_of ws we r = Some ev ->
  exists s,
    ship r = Some s /\
    ev_start ev = Z.max (ts_date s) ws /\
    ev_end ev = Z.min (end_full_of r s) we /\
    ev_start ev <= ev_end ev /\
    ev_days ev = end_full_of r s - ts_date s + 1 /\
    ev_carrier ev = carrier r.
Proof.
  unfold event_of, py_or, ts_truthy, end_full_of.
  destruct (ship r) as [s|]; [|discriminate]. intros Hev. exists s.
  assert (ts_date (ts_normalize
            match eta_dest r with Some e => e | None => add_days s 7 end)
          = match eta_dest r with Some e => ts_date e | None => ts_date s + 7 end)
    as Hend.
  { rewrite ts_date_normalize. destruct (eta_dest r); [reflexivity |].
    apply ts_date_add_days. }
  rewrite Hend, ts_date_normalize in Hev.
  destruct (Z.ltb_spec
              (Z.min match eta_dest r with Some e => ts_date e | None => ts_date s + 7 end we)
              (Z.max (ts_date s) ws)) as [Hlt|Hge]; [discriminate |].
  injection Hev as <-. cbn [ev_start ev_end ev_days ev_carrier].
  repeat split; try reflexivity; try exact Hge.
  destruct (carrier r) as [[|c t]|]; reflexivity.
Qed.

Lemma event_of_none (ws we : date) (r : Item) :
  event_of ws we r = None <->
  ship r = None \/
  exists s, ship r = Some s /\
            Z.min (end_full_of r s) we < Z.max (ts_date s) ws.
Proof.
  unfold event_of, py_or, ts_truthy, end_full_of.
  destruct (ship r) as [s|]; [|split; [left; reflexivity | reflexivity]].
  assert (ts_date (ts_normalize
            match eta_dest r with Some e => e | None => add_days s 7 end)
          = match eta_dest r with Some e => ts_date e | None => ts_date s + 7 end)
    as Hend.
  { rewrite ts_date_normalize. destruct (eta_dest r); [reflexivity |].
    apply ts_date_add_days. }
  rewrite Hend, ts_date_normalize.
  destruct (Z.ltb_spec
              (Z.min match eta_dest r with Some e => ts_date e | None => ts_date s + 7 end we)
              (Z.max (ts_date s) ws)) as [Hlt|Hge].
  - split; [intros _; right; eauto | reflexivity].
  - split; [discriminate |]. intros [[=] | (s' & [= <-] & Hlt)]. lia.
Qed.

(** The interval is the one of the specification unless the warehouse
    arrival is missing while the port arrival is known. *)
Lemma end_full_agrees (r : Item) (shipped : Timestamp) :
  eta_dest r <> None \/ eta_port r = None ->
  end_full_of r shipped = spec_end_full r shipped.
Proof.
  unfold end_full_of, spec_end_full, eta_col.
  destruct (eta_dest r) as [e|]; [reflexivity |].
  intros [Hdest | ->]; [contradiction | reflexivity].
Qed.

(** The example of the specification: the interval 2024-01-01 to 2024-01-10
    in the window of three days from 2024-01-05 gives one event, clipped to
    the window and labelled with ten days, and one bar, from Friday over
    three columns. *)
Lemma clipping_example :
  map (fun ev => (ev_start ev, ev_end ev, ev_days ev))
      (make_events_for_product
         (intransit_df (mkdate 2024 1 1) (items_df [row_ten_days]))
         (u "白色粉末优镁粉") (mkdate 2024 1 5) 3)
  = [(mkdate 2024 1 5, mkdate 2024 1 7, 10)] /\
  map (fun b => (bar_column b, bar_span b, ev_days (bar_event b)))
      (calendar_bars
         (color_map (intransit_df (mkdate 2024 1 1) (items_df [row_ten_days])))
         (mkdate 2024 1 5) 3
         (make_events_for_product
            (intransit_df (mkdate 2024 1 1) (items_df [row_ten_days]))
            (u "白色粉末优镁粉") (mkdate 2024 1 5) 3))
  = [(5, 3, 10)].
Proof. run_model. Qed.

(** C6 on a failing input: an in-transit item shipped on 2024-01-01, due at
    the port on 2024-01-03, with no warehouse arrival.  Its effective
    arrival date is 2024-01-03, so the interval that the specification
    clips runs from 2024-01-01 to 2024-01-03, three days; the event of the
    script runs to 2024-01-08 and is labelled with eight days. *)
Theorem event_interval_ignores_port_arrival :
  map (fun it => (ts_date <$> eta_col it, spec_interval it))
      (intransit_df (mkdate 2024 1 1) (items_df [row_no_dest]))
  = [(Some (mkdate 2024 1 3), Some (mkdate 2024 1 1, mkdate 2024 1 3))] /\
  map (fun ev => (ev_start ev, ev_end ev, ev_days ev))
      (make_events_for_product
         (intransit_df (mkdate 2024 1 1) (items_df [row_no_dest]))
         (u "白色粉末优镁粉") (mkdate 2024 1 1) 30)
  = [(mkdate 2024 1 1, mkdate 2024 1 8, 8)].
Proof. run_model. Qed.

(** C10: an in-transit item without shipping date gives no event, whatever
    its arrival dates and the window, and the events are those of the table
    without it.  Every event stems from an item with a shipping date; the
    seven days are added to that date, and only when the warehouse arrival
    is missing. *)
Theorem make_events_drops_missing_ship (l1 l2 : list Item) (r : Item)
    (prod : text) (window_start days : Z) :
  ship r = None ->
  event_of window_start (window_start + (days - 1)) r = None /\
  make_events_for_product (l1 ++ r :: l2) prod window_start days
  = make_events_for_product (l1 ++ l2) prod window_start days /\
  (forall (r' : Item) (ev : Event),
     event_of window_start (window_start + (days - 1)) r' = Some ev ->
     exists s, ship r' = Some s /\
               ev_days ev = match eta_dest r' with
                            | Some e => ts_date e - ts_date s + 1
                            | None => ts_date s + 7 - ts_date s + 1
                            end).
Proof.
  intros Hship.
  assert (event_of window_start (window_start + (days - 1)) r = None) as Hnone.
  { apply event_of_none. left. exact Hship. }
  split; [exact Hnone | split].
  - unfold make_events_for_product. rewrite !List.filter_app.
    cbn [List.filter]. destruct (text_eqb (product r) prod); [|reflexivity].
    rewrite !omap_app. cbn [omap list_omap]. rewrite Hnone. reflexivity.
  - intros r' ev Hev. apply event_of_inv in Hev as (s & Hs & _ & _ & _ & Hd & _).
    exists s. split; [exact Hs |]. rewrite Hd. unfold end_full_of.
    destruct (eta_dest r'); reflexivity.
Qed.

Lemma make_events_drops_missing_ship_witness :
  event_of (mkdate 2024 1 5) (mkdate 2024 1 5 + (3 - 1)) item_no_ship = None /\
  make_events_for_product ([] ++ item_no_ship :: []) (u "白色粉末优镁粉")
                          (mkdate 2024 1 5) 3
  = make_events_for_product ([] ++ []) (u "白色粉末优镁粉") (mkdate 2024 1 5) 3.
Proof.
  destruct (make_events_drops_missing_ship [] [] item_no_ship
              (u "白色粉末优镁粉") (mkdate 2024 1 5) 3 eq_refl) as (H1 & H2 & _).
  split; [exact H1 | exact H2].
Defined.

(** ** Carrier colours *)

Lemma text_leb_refl (a : text) : text_leb a a = true.
Proof.
  induction a as [|x a IH]; simpl; [reflexivity |].
  rewrite N.ltb_irrefl. exact IH.
Qed.

Lemma text_leb_total (a b : text) : text_leb a b = true \/ text_leb b a = true.
Proof.
  revert b. induction a as [|x a IH]; intros [|y b]; simpl; auto.
  destruct (N.ltb_spec x y), (N.ltb_spec y x); auto; lia.
Qed.

Lemma text_leb_trans (a b c : text) :
  text_leb a b = true -> text_leb b c = true -> text_leb a c = true.
Proof.
  revert b c. induction a as [|x a IH]; intros [|y b] [|z c]; simpl; auto;
    try discriminate.
  destruct (N.ltb_spec x y), (N.ltb_spec y x), (N.ltb_spec y z),
    (N.ltb_spec z y), (N.ltb_spec x z), (N.ltb_spec z x);
    auto; try discriminate; try lia.
  apply IH.
Qed.

Lemma text_leb_antisym (a b : text) :
  text_leb a b = true -> text_leb b a = true -> a = b.
Proof.
  revert b. induction a as [|x a IH]; intros [|y b]; simpl; auto;
    try discriminate.
  destruct (N.ltb_spec x y), (N.ltb_spec y x); try discriminate; try lia.
  intros Hab Hba. assert (x = y) as -> by lia. f_equal. exact (IH b Hab Hba).
Qed.

#[global] Instance text_le_total : Total text_le.
Proof. intros a b. apply text_leb_total. Qed.

#[global] Instance text_le_trans : Transitive text_le.
Proof. intros a b c. apply text_leb_trans. Qed.

#[global] Instance text_le_antisym : AntiSymm (=) text_le.
Proof. intros a b. apply text_leb_antisym. Qed.

Lemma unique_In (l : list text) (x : text) : In x (unique l) <-> In x l.
Proof.
  induction l as [|a l IH]; simpl; [tauto |].
  rewrite filter_In, IH. unfold text_eqb.
  destruct (decide (a = x)) as [->|Hne].
  - tauto.
  - rewrite (bool_decide_eq_false_2 _ Hne). simpl. tauto.
Qed.

Lemma unique_NoDup (l : list text) : NoDup (unique l).
Proof.
  induction l as [|a l IH]; simpl; constructor.
  - rewrite list_elem_of_In, filter_In. unfold text_eqb.
    rewrite bool_decide_eq_true_2 by reflexivity. simpl. intros [_ [=]].
  - apply NoDup_ListNoDup, List.NoDup_filter, NoDup_ListNoDup. exact IH.
Qed.

Lemma sorted_In (l : list text) (x : text) : In x (sorted l) <-> In x l.
Proof.
  unfold sorted. rewrite <- !list_elem_of_In.
  rewrite (merge_sort_Permutation text_le l). reflexivity.
Qed.

Lemma sorted_NoDup (l : list text) : NoDup l -> NoDup (sorted l).
Proof.
  unfold sorted. intros H. rewrite (merge_sort_Permutation text_le l). exact H.
Qed.

Lemma sorted_Sorted (l : list text) : StronglySorted text_le (sorted l).
Proof. unfold sorted. apply StronglySorted_merge_sort; apply _. Qed.

(** The sorted list of distinct carriers depends on their set only. *)
Lemma sorted_unique_set (l1 l2 : list text) :
  (forall x, In x l1 <-> In x l2) -> sorted (unique l1) = sorted (unique l2).
Proof.
  intros Hset. apply (StronglySorted_unique text_le); try apply sorted_Sorted.
  unfold sorted. rewrite !merge_sort_Permutation.
  apply NoDup_Permutation; try apply unique_NoDup.
  intros x. rewrite !list_elem_of_In, !unique_In. apply Hset.
Qed.

Lemma carriers_In (l : list Item) (c : text) :
  In c (omap carrier l) <-> In (Some c) (map carrier l).
Proof.
  rewrite <- list_elem_of_In, list_elem_of_omap, in_map_iff.
  split; intros (it & H1 & H2); exists it;
    [apply list_elem_of_In in H1 | apply list_elem_of_In in H2]; tauto.
Qed.

Lemma color_map_carrier_set (l1 l2 : list Item) :
  (forall c, In (Some c) (map carrier l1) <-> In (Some c) (map carrier l2)) ->
  color_map l1 = color_map l2.
Proof.
  intros Hset. unfold color_map, carriers.
  rewrite (sorted_unique_set (omap carrier l1) (omap carrier l2)); [reflexivity |].
  intros c. rewrite !carriers_In. apply Hset.
Qed.

Lemma fold_insert_other (l : list (text * text)) (m : gmap (list N) (list N))
    (k : text) :
  ~ In k (map fst l) ->
  fold_left (fun m kv => <[kv.1 := kv.2]> m) l m !! k = m !! k.
Proof.
  revert m. induction l as [|[k' v'] l IH]; intros m Hk; simpl; [reflexivity |].
  simpl in Hk. rewrite IH by tauto.
  apply lookup_insert_ne. intros ->. tauto.
Qed.

Lemma fold_insert_lookup (l : list (text * text)) (m : gmap (list N) (list N))
    (k v : text) :
  NoDup (map fst l) -> In (k, v) l ->
  fold_left (fun m kv => <[kv.1 := kv.2]> m) l m !! k = Some v.
Proof.
  revert m. induction l as [|[k' v'] l IH]; intros m Hnd Hin; simpl; [destruct Hin |].
  simpl in Hnd. apply NoDup_cons in Hnd as [Hk' Hnd].
  destruct Hin as [[= -> ->] | Hin].
  - rewrite fold_insert_other by (rewrite <- list_elem_of_In; exact Hk').
    apply lookup_insert_eq.
  - apply IH; assumption.
Qed.

Lemma imap_keys (l : list text) :
  map fst (imap (fun i c => (c, palette_at i)) l) = l.
Proof.
  change (map fst (imap (fun i c => (c, palette_at i)) l))
    with (fst <$> imap (fun i c => (c, palette_at i)) l).
  rewrite fmap_imap.
  rewrite (imap_ext _ (fun _ c => c)) by reflexivity.
  induction l as [|x l IH]; [reflexivity |].
  cbn. f_equal. rewrite <- IH at 2. apply imap_ext. reflexivity.
Qed.

Lemma palette_at_lookup (i : nat) :
  PALETTE !! (i mod length PALETTE)%nat = Some (palette_at i).
Proof.
  unfold palette_at.
  destruct (lookup_lt_is_Some_2 PALETTE (i mod length PALETTE)%nat) as [c ->];
    [|reflexivity].
  apply Nat.mod_upper_bound. discriminate.
Qed.

(** The [i]-th carrier of the sorted list gets [PALETTE[i % len(PALETTE)]],
    and a text that is no carrier of the table is no key of the map. *)
Lemma color_map_lookup (l : list Item) (i : nat) (c : text) :
  sorted (carriers l) !! i = Some c ->
  color_map l !! c = PALETTE !! (i mod length PALETTE)%nat.
Proof.
  intros Hi. rewrite palette_at_lookup. unfold color_map.
  apply fold_insert_lookup.
  - rewrite imap_keys. apply sorted_NoDup, unique_NoDup.
  - apply list_elem_of_In, list_elem_of_lookup. exists i.
    rewrite list_lookup_imap, Hi. reflexivity.
Qed.

Lemma color_map_absent (l : list Item) (c : text) :
  ~ In (Some c) (map carrier l) -> color_map l !! c = None.
Proof.
  intros Hc. unfold color_map. rewrite fold_insert_other; [apply lookup_empty |].
  rewrite imap_keys, sorted_In. unfold carriers.
  rewrite unique_In, carriers_In. exact Hc.
Qed.

Lemma intransit_items_Permutation (track1 track2 : list TrackRow)
    (today : date) (it : Item) :
  track1 ≡ₚ track2 ->
  In it (intransit_df today (items_df track1)) ->
  In it (intransit_df today (items_df track2)).
Proof.
  intros Hperm. unfold intransit_df, items_df.
  rewrite !filter_In, !in_flat_map. intros [(row & Hrow & Hit) Hin].
  split; [|exact Hin]. exists row. split; [|exact Hit].
  exact (Permutation_in _ Hperm Hrow).
Qed.

(** C8: the colour map is a function of the set of distinct non-null
    carriers of the in-transit items.  These are sorted in the lexicographic
    order of [str]; the [i]-th of them gets [PALETTE[i % len(PALETTE)]]; so
    the same tracking rows in another order give the same map.  An unknown
    carrier, that is a null cell (the readers of pandas turn an empty cell
    into a null one) or any text that is no carrier of the table, gets the
    default colour [#e8e8e8], which is no palette entry. *)
Theorem carrier_colours_stable (track1 track2 : list TrackRow) (today : date) :
  track1 ≡ₚ track2 ->
  color_map (intransit_df today (items_df track1))
  = color_map (intransit_df today (items_df track2)) /\
  (forall l1 l2 : list Item,
     (forall c, In (Some c) (map carrier l1) <-> In (Some c) (map carrier l2)) ->
     color_map l1 = color_map l2) /\
  (forall l : list Item,
     StronglySorted text_le (sorted (carriers l)) /\
     NoDup (sorted (carriers l)) /\
     (forall c, In c (sorted (carriers l)) <-> In (Some c) (map carrier l)) /\
     (forall (i : nat) (c : text),
        sorted (carriers l) !! i = Some c ->
        color_map l !! c = PALETTE !! (i mod length PALETTE)%nat) /\
     (forall c, ~ In (Some c) (map carrier l) ->
                bar_color (color_map l) (Some c) = DEFAULT_BAR_COLOR) /\
     (forall (r : Item) (ev : Event) (b : Bar) (ws we s e : date),
        carrier r = None -> event_of ws we r = Some ev ->
        bar_of (color_map l) s e ev = Some b ->
        bar_fill b = DEFAULT_BAR_COLOR)) /\
  ~ In DEFAULT_BAR_COLOR PALETTE.
Proof.
  intros Hperm. split; [| split; [| split]].
  - apply color_map_carrier_set. intros c. rewrite !in_map_iff.
    split; intros (it & Hc & Hit); exists it; (split; [exact Hc |]).
    + exact (intransit_items_Permutation _ _ _ _ Hperm Hit).
    + symmetry in Hperm. exact (intransit_items_Permutation _ _ _ _ Hperm Hit).
  - exact color_map_carrier_set.
  - intros l. repeat split.
    + apply sorted_Sorted.
    + apply sorted_NoDup, unique_NoDup.
    + rewrite sorted_In. unfold carriers. rewrite unique_In, carriers_In. tauto.
    + rewrite sorted_In. unfold carriers. rewrite unique_In, carriers_In. tauto.
    + apply color_map_lookup.
    + intros c Hc. unfold bar_color. rewrite (color_map_absent l c Hc).
      reflexivity.
    + intros r ev b ws we s e Hnull Hev Hbar.
      apply event_of_inv in Hev as (s0 & _ & _ & _ & _ & _ & Hcar).
      unfold bar_of in Hbar.
      destruct (Z.min (ev_end ev) e <? Z.max (ev_start ev) s); [discriminate |].
      injection Hbar as <-. cbn [bar_fill]. rewrite Hcar, Hnull. reflexivity.
  - vm_compute. intros H. repeat (destruct H as [H | H]; [discriminate |]).
    exact H.
Qed.

Lemma carrier_colours_stable_witness :
  color_map (intransit_df (mkdate 2024 3 1) (items_df [row_no_port; row_brown]))
  = color_map (intransit_df (mkdate 2024 3 1) (items_df [row_brown; row_no_port])).
Proof.
  exact (proj1 (carrier_colours_stable [row_no_port; row_brown]
                  [row_brown; row_no_port] (mkdate 2024 3 1)
                  (perm_swap row_brown row_no_port []))).
Defined.

(** C9 on a failing input: a tracking row with 20 t of 白色粉末优乐粉.
    [split_product_items] emits an item of the category 白色粉末优乐粉,
    the target of the third rule, which is none of the ten names of
    [PREFERRED_ORDER]; the item is in transit, is summed, and its carrier
    gets a colour. *)
Theorem split_product_items_emits_eleventh_category :
  map (fun it => (product it, qty it)) (split_product_items row_youle)
  = [(u "白色粉末优乐粉", 20%Q)] /\
  isin (u "白色粉末优乐粉") PREFERRED_ORDER = false /\
  intransit_sum (intransit_df (mkdate 2024 3 1) (items_df [row_youle]))
    !! u "白色粉末优乐粉" = Some 20%Q /\
  color_map (intransit_df (mkdate 2024 3 1) (items_df [row_youle]))
    !! u "CarrierA" = Some (u "#FAD7A0").
Proof. run_model. Qed.

(** * Further properties of the script *)

(** ** Splitting and stripping *)

Lemma re_split_nonempty (sep : N -> bool) (s : text) : re_split sep s <> [].
Proof.
  destruct s as [|c s]; simpl; [discriminate |].
  destruct (sep c); [discriminate |].
  destruct (re_split sep s); discriminate.
Qed.

Lemma re_split_concat (sep : N -> bool) (s : text) :
  concat (re_split sep s) = List.filter (fun c => negb (sep c)) s.
Proof.
  induction s as [|c s IH]; simpl; [reflexivity |].
  destruct (sep c); simpl; [exact IH |].
  destruct (re_split sep s) as [|p ps] eqn:Hs.
  - destruct (re_split_nonempty sep s Hs).
  - simpl in *. rewrite IH. reflexivity.
Qed.

Lemma re_split_parts (sep : N -> bool) (s p : text) :
  In p (re_split sep s) -> forallb (fun c => negb (sep c)) p = true.
Proof.
  revert p. induction s as [|c s IH]; intros p; simpl.
  - intros [<- | []]. reflexivity.
  - destruct (sep c) eqn:Hc.
    + intros [<- | Hp]; [reflexivity | exact (IH p Hp)].
    + destruct (re_split sep s) as [|q qs] eqn:Hs.
      * intros [<- | []]. simpl. rewrite Hc. reflexivity.
      * intros [<- | Hp].
        -- simpl. rewrite Hc. simpl. apply IH. left; reflexivity.
        -- apply IH. right; exact Hp.
Qed.

Lemma re_split_length (sep : N -> bool) (s : text) :
  length (re_split sep s) = S (length (List.filter sep s)).
Proof.
  induction s as [|c s IH]; simpl; [reflexivity |].
  destruct (sep c); simpl; [rewrite IH; reflexivity |].
  destruct (re_split sep s) as [|q qs] eqn:Hs.
  - destruct (re_split_nonempty sep s Hs).
  - simpl in *. exact IH.
Qed.

Lemma lstrip_spaces (pad s : text) :
  forallb py_isspace pad = true -> lstrip (pad ++ s) = lstrip s.
Proof.
  induction pad as [|c pad IH]; simpl; [reflexivity |].
  intros H. apply andb_prop in H as [Hc Hp]. rewrite Hc. exact (IH Hp).
Qed.

Lemma lstrip_fixed (c : N) (s : text) :
  py_isspace c = false -> lstrip (c :: s) = c :: s.
Proof. intros Hc. simpl. rewrite Hc. reflexivity. Qed.

Lemma lstrip_snoc (l : text) (x : N) :
  py_isspace x = false -> exists l', lstrip (l ++ [x]) = l' ++ [x].
Proof.
  intros Hx. induction l as [|c l IH]; simpl.
  - rewrite Hx. exists []. reflexivity.
  - destruct (py_isspace c); [exact IH |]. exists (c :: l). reflexivity.
Qed.

Lemma lstrip_head (s : text) :
  match lstrip s with [] => True | c :: _ => py_isspace c = false end.
Proof.
  induction s as [|c s IH]; simpl; [exact I |].
  destruct (py_isspace c) eqn:Hc; [exact IH | exact Hc].
Qed.

Lemma rstrip_spaces (s pad : text) :
  forallb py_isspace pad = true -> rstrip (s ++ pad) = rstrip s.
Proof.
  intros Hp. unfold rstrip. rewrite rev_app_distr, lstrip_spaces; [reflexivity |].
  rewrite forallb_forall in *. intros c Hc. apply Hp, in_rev, Hc.
Qed.

(** [rstrip] keeps a first character that is no white space. *)
Lemma rstrip_head (c : N) (s : text) :
  py_isspace c = false -> exists s', rstrip (c :: s) = c :: s'.
Proof.
  intros Hc. unfold rstrip. simpl.
  destruct (lstrip_snoc (rev s) c Hc) as [l' ->].
  rewrite rev_app_distr. simpl. eauto.
Qed.

Lemma rstrip_idem (s : text) : rstrip (rstrip s) = rstrip s.
Proof.
  unfold rstrip. rewrite rev_involutive.
  pose proof (lstrip_head (rev s)) as Hh.
  destruct (lstrip (rev s)) as [|c t]; [reflexivity |].
  rewrite (lstrip_fixed c t Hh). reflexivity.
Qed.

Lemma strip_idem (s : text) : strip (strip s) = strip s.
Proof.
  unfold strip. pose proof (lstrip_head s) as Hh.
  destruct (lstrip s) as [|c t].
  - reflexivity.
  - destruct (rstrip_head c t Hh) as [s' Hs']. rewrite Hs'.
    rewrite (lstrip_fixed c s' Hh). rewrite <- Hs'. apply rstrip_idem.
Qed.

Lemma strip_padding (pad1 s pad2 : text) :
  forallb py_isspace pad1 = true -> forallb py_isspace pad2 = true ->
  strip (pad1 ++ s ++ pad2) = strip s.
Proof.
  intros H1 H2. unfold strip. rewrite (lstrip_spaces pad1 _ H1).
  pose proof (lstrip_head (s ++ pad2)) as Hh.
  (* lstrip (s ++ pad2) is lstrip s ++ pad2 unless s is all white space *)
  induction s as [|c s IH]; simpl.
  - assert (lstrip pad2 = []) as ->.
    { clear Hh. induction pad2 as [|c p IHp]; simpl; [reflexivity |].
      simpl in H2. apply andb_prop in H2 as [Hc Hp]. rewrite Hc. exact (IHp Hp). }
    reflexivity.
  - destruct (py_isspace c) eqn:Hc.
    + apply IH. exact (lstrip_head (s ++ pad2)).
    + change (c :: s ++ pad2) with ((c :: s) ++ pad2).
      apply rstrip_spaces. exact H2.
Qed.
(** ** The colour families of [normalize_product] *)

Lemma re_search_lit_head (l : text) (r : regex) (s : text) :
  re_search (Seq (Lit l) r) s = true -> contains l s = true.
Proof.
  rewrite re_search_spec, contains_spec.
  intros (a & p & b & -> & p1 & p2 & -> & -> & _).
  exists a, (p2 ++ b). rewrite <- !app_assoc. reflexivity.
Qed.

Lemma re_search_catch_all (l s : text) :
  contains l s = true -> re_search (Seq (Lit l) any_star) s = true.
Proof.
  rewrite re_search_spec, contains_spec. intros (a & b & ->).
  exists a, l, b. split; [reflexivity |].
  exists l, []. rewrite app_nil_r. repeat split.
Qed.

Ltac split_rules :=
  unfold normalize_product, RULES; cbn [first_rule seqs];
  repeat match goal with
         | |- context [if re_search ?p ?s then _ else _] =>
             let H := fresh "Hr" in destruct (re_search p s) eqn:H
         end.

Ltac head_found :=
  match goal with
  | H : re_search (Seq (Lit ?l) _) ?s = true, Hc : contains ?l ?s = false |- _ =>
      apply re_search_lit_head in H; rewrite Hc in H; discriminate H
  end.

Ltac catch_all_missed :=
  match goal with
  | H : re_search (Seq (Lit ?l) any_star) ?s = false, Hc : contains ?l ?s = true |- _ =>
      apply re_search_catch_all in Hc; rewrite H in Hc; discriminate Hc
  end.

Ltac in_list := vm_compute; repeat (first [left; reflexivity | right]).

Lemma brown_found (s : text) :
  re_search (seqs [Lit (u "棕色"); any_star; Lit (u "1号"); any_star]) s = true \/
  re_search (seqs [Lit (u "棕色"); any_star;
                   Alt (Lit (u "0号")) (Lit (u "2号")); any_star]) s = true
  <-> brown_numbered s.
Proof.
  rewrite !re_search_spec. cbn [seqs lang any_star]. unfold brown_numbered. split.
  - intros [(a & p & c & -> & p1 & q1 & -> & -> & b & q2 & -> & Hb & p3 & q3 & -> & Hd & _)
           |(a & p & c & -> & p1 & q1 & -> & -> & b & q2 & -> & Hb & p3 & q3 & -> & Hd & _)].
    + subst p3. exists a, b, (q3 ++ c), 49%N. split; [|split; [exact Hb | simpl; tauto]].
      change (u "1号") with (49%N :: u "号"). rewrite <- !app_assoc. reflexivity.
    + destruct Hd as [-> | ->].
      * exists a, b, (q3 ++ c), 48%N. split; [|split; [exact Hb | simpl; tauto]].
        change (u "0号") with (48%N :: u "号"). rewrite <- !app_assoc. reflexivity.
      * exists a, b, (q3 ++ c), 50%N. split; [|split; [exact Hb | simpl; tauto]].
        change (u "2号") with (50%N :: u "号"). rewrite <- !app_assoc. reflexivity.
  - intros (a & b & c & d & -> & Hb & Hd).
    destruct Hd as [<- | [<- | [<- | []]]].
    + right. exists a, (u "棕色" ++ b ++ u "0号"), c. split.
      * change (u "0号") with (48%N :: u "号"). rewrite <- !app_assoc. reflexivity.
      * exists (u "棕色"), (b ++ u "0号"). repeat split.
        exists b, (u "0号"). repeat split; [exact Hb |].
        exists (u "0号"), []. rewrite app_nil_r. repeat split. left; reflexivity.
    + left. exists a, (u "棕色" ++ b ++ u "1号"), c. split.
      * change (u "1号") with (49%N :: u "号"). rewrite <- !app_assoc. reflexivity.
      * exists (u "棕色"), (b ++ u "1号"). repeat split.
        exists b, (u "1号"). repeat split; [exact Hb |].
        exists (u "1号"), []. rewrite app_nil_r. repeat split.
    + right. exists a, (u "棕色" ++ b ++ u "2号"), c. split.
      * change (u "2号") with (50%N :: u "号"). rewrite <- !app_assoc. reflexivity.
      * exists (u "棕色"), (b ++ u "2号"). repeat split.
        exists b, (u "2号"). repeat split; [exact Hb |].
        exists (u "2号"), []. rewrite app_nil_r. repeat split. right; reflexivity.
Qed.

Ltac brown_absurd :=
  match goal with
  | Hb : ~ brown_numbered ?s |- _ =>
      exfalso; apply Hb; apply brown_found; cbn [seqs]; tauto
  end.

Ltac not_contained :=
  match goal with
  | |- contains ?l ?s = false =>
      let H := fresh "Hc" in
      destruct (contains l s) eqn:H; [catch_all_missed | reflexivity]
  end.

(** X1: the colour families are tried in the order white, golden, deep yellow,
    light yellow, brown: the first colour word found in the pre-cleaned text
    fixes the family of the result, and a text is left unclassified exactly
    when it has none of the four powder words and no numbered brown. *)
Theorem normalize_product_families (name : text) :
  (contains (u "白色粉末") (preclean name) = true ->
   In (normalize_product name)
      [Some (u "白色粉末甜味优镁粉"); Some (u "白色粉末（白皮）");
       Some (u "白色粉末优乐粉"); Some (u "白色粉末优镁粉")]) /\
  (contains (u "白色粉末") (preclean name) = false ->
   contains (u "金黄色粉末") (preclean name) = true ->
   In (normalize_product name)
      [Some (u "金黄色粉末优镁粉1号"); Some (u "金黄色粉末优镁粉2号")]) /\
  (contains (u "白色粉末") (preclean name) = false ->
   contains (u "金黄色粉末") (preclean name) = false ->
   contains (u "深黄色粉末") (preclean name) = true ->
   In (normalize_product name)
      [Some (u "深黄色粉末甜味优镁粉"); Some (u "深黄色粉末优镁粉")]) /\
  (contains (u "白色粉末") (preclean name) = false ->
   contains (u "金黄色粉末") (preclean name) = false ->
   contains (u "深黄色粉末") (preclean name) = false ->
   contains (u "浅黄色粉末") (preclean name) = true ->
   normalize_product name = Some (u "浅黄色粉末优镁粉")) /\
  (normalize_product name = None <->
   contains (u "白色粉末") (preclean name) = false /\
   contains (u "金黄色粉末") (preclean name) = false /\
   contains (u "深黄色粉末") (preclean name) = false /\
   contains (u "浅黄色粉末") (preclean name) = false /\
   ~ brown_numbered (preclean name)).
Proof.
  split; [| split; [| split; [| split]]].
  - intros Hw. split_rules; try catch_all_missed; in_list.
  - intros Hw Hg. split_rules; try head_found; try catch_all_missed; in_list.
  - intros Hw Hg Hd. split_rules; try head_found; try catch_all_missed; in_list.
  - intros Hw Hg Hd Hl. split_rules; try head_found; try catch_all_missed.
    reflexivity.
  - split.
    + split_rules; try discriminate. intros _.
      repeat split; try not_contained.
      intros Hb. apply brown_found in Hb. cbn [seqs] in Hb.
      destruct Hb as [Hb | Hb]; congruence.
    + intros (Hw & Hg & Hd & Hl & Hb).
      split_rules; try head_found; try brown_absurd. reflexivity.
Qed.
(** ** What [split_product_items] emits *)

Lemma first_with_sound (g rest : regex) (s grp e2 : text) (es : list text) :
  (forall e, In e es -> In e (rmatch g s)) ->
  first_with rest s es = Some (grp, e2) ->
  exists p, s = grp ++ p ++ e2 /\ lang g grp /\ lang rest p.
Proof.
  induction es as [|e es IH]; simpl; [discriminate |]. intros Hsub.
  destruct (rmatch rest e) as [|e2' l] eqn:Hrest.
  - apply IH. intros e' He'. apply Hsub. right; exact He'.
  - intros [= <- <-].
    destruct (proj1 (rmatch_spec g s e) (Hsub e (or_introl eq_refl)))
      as (p & -> & Hp).
    assert (In e2' (rmatch rest e)) as Hin by (rewrite Hrest; left; reflexivity).
    apply rmatch_spec in Hin as (p' & -> & Hp').
    rewrite !length_app.
    replace (length p + (length p' + length e2') - (length p' + length e2'))%nat
      with (length p) by lia.
    rewrite take_app_length. exists p'. repeat split; assumption.
Qed.

Lemma search_group1_sound (g rest : regex) (s grp : text) :
  search_group1 g rest s = Some grp ->
  exists a p b, s = a ++ grp ++ p ++ b /\ lang g grp /\ lang rest p.
Proof.
  induction s as [|c s IH]; simpl.
  - destruct (match_group1 g rest []) as [[grp' e]|] eqn:Hm; [|discriminate].
    intros [= <-].
    destruct (first_with_sound g rest _ _ _ _ (fun _ H => H) Hm) as (p & Hs & H1 & H2).
    exists [], p, e. eauto.
  - destruct (match_group1 g rest (c :: s)) as [[grp' e]|] eqn:Hm.
    + intros [= <-].
      destruct (first_with_sound g rest _ _ _ _ (fun _ H => H) Hm) as (p & Hs & H1 & H2).
      exists [], p, e. eauto.
    + intros H. destruct (IH H) as (a & p & b & -> & H1 & H2).
      exists (c :: a), p, b. eauto.
Qed.

Lemma item_of_part_sound (row : TrackRow) (part : text) (it : Item) :
  item_of_part row part = Some it ->
  raw_name it = strip part /\
  (exists a g sp b,
     raw_name it = a ++ g ++ sp ++ u "吨" ++ b /\
     forallb py_isspace sp = true /\
     py_float g = Some (qty it)) /\
  normalize_product (raw_name it) = Some (product it).
Proof.
  unfold item_of_part.
  destruct (search_group1 QTY_GROUP QTY_REST (strip part)) as [g|] eqn:Hg;
    [|discriminate].
  destruct (py_float g) as [q|] eqn:Hq; [|discriminate].
  destruct (normalize_product (strip part)) as [base|] eqn:Hn; [|discriminate].
  intros [= <-]. cbn [raw_name qty product]. repeat split; [|exact Hn].
  apply search_group1_sound in Hg as (a & p & b & Hs & _ & sp & t & -> & Hsp & ->).
  exists a, g, sp, b. repeat split; [|exact Hsp | exact Hq].
  rewrite Hs, <- !app_assoc. reflexivity.
Qed.

Lemma lstrip_suffix (s : text) : exists a, s = a ++ lstrip s.
Proof.
  induction s as [|c s [a IH]]; simpl; [exists []; reflexivity |].
  destruct (py_isspace c); [|exists []; reflexivity].
  exists (c :: a). simpl. rewrite <- IH. reflexivity.
Qed.

Lemma strip_infix (s : text) : exists a b, s = a ++ strip s ++ b.
Proof.
  unfold strip, rstrip. destruct (lstrip_suffix s) as [a Ha].
  destruct (lstrip_suffix (rev (lstrip s))) as [b Hb].
  exists a, (rev b). rewrite <- rev_app_distr, <- Hb, rev_involutive. exact Ha.
Qed.

Lemma re_split_head (sep : N -> bool) (s q : text) (qs : list text) :
  re_split sep s = q :: qs -> exists b, s = q ++ b.
Proof.
  revert q qs. induction s as [|c s IH]; intros q qs; simpl.
  - intros [= <- <-]. exists []. reflexivity.
  - destruct (sep c).
    + intros [= <- <-]. exists (c :: s). reflexivity.
    + destruct (re_split sep s) as [|q' qs'] eqn:Hs.
      * destruct (re_split_nonempty sep s Hs).
      * intros [= <- <-]. destruct (IH q' qs' eq_refl) as [b ->].
        exists b. reflexivity.
Qed.

Lemma re_split_infix (sep : N -> bool) (s p : text) :
  In p (re_split sep s) -> exists a b, s = a ++ p ++ b.
Proof.
  revert p. induction s as [|c s IH]; intros p; simpl.
  - intros [<- | []]. exists [], []. reflexivity.
  - destruct (sep c).
    + intros [<- | Hp]; [exists [], (c :: s); reflexivity |].
      destruct (IH p Hp) as (a & b & ->). exists (c :: a), b. reflexivity.
    + destruct (re_split sep s) as [|q qs] eqn:Hs.
      * destruct (re_split_nonempty sep s Hs).
      * intros [<- | Hp].
        -- destruct (re_split_head sep s q qs Hs) as [b ->].
           exists [], b. reflexivity.
        -- destruct (IH p (or_intror Hp)) as (a & b & ->).
           exists (c :: a), b. reflexivity.
Qed.

Lemma contains_infix (needle a s b : text) :
  contains needle s = true -> contains needle (a ++ s ++ b) = true.
Proof.
  rewrite !contains_spec. intros (x & y & ->).
  exists (a ++ x), (y ++ b). rewrite <- !app_assoc. reflexivity.
Qed.

(** X2: what [split_product_items] emits.  Each item stems from one part of
    the product cell, cut at [+], [,] or [，] and stripped; its raw name has a
    numeral, optional white space and 吨; its quantity is the value of that
    numeral and is not negative; its category is what [normalize_product]
    gives for the raw name; its dates and carrier are those of the row. *)
Theorem split_product_items_sound (row : TrackRow) (it : Item) :
  In it (split_product_items row) ->
  (exists part, In part (re_split is_separator (row_product row)) /\
                raw_name it = strip part) /\
  (exists a g sp b,
     raw_name it = a ++ g ++ sp ++ u "吨" ++ b /\
     forallb py_isspace sp = true /\
     py_float g = Some (qty it)) /\
  (0 <= qty it)%Q /\
  normalize_product (raw_name it) = Some (product it) /\
  ship it = row_ship row /\ eta_port it = row_eta_port row /\
  eta_dest it = row_eta_dest row /\ carrier it = row_carrier row /\
  container it = row_container row.
Proof.
  unfold split_product_items. intros Hin. apply list_elem_of_In in Hin.
  apply list_elem_of_omap in Hin as (part & Hpart & Hit).
  apply list_elem_of_In in Hpart.
  pose proof (item_of_part_sound _ _ _ Hit) as (Hraw & Hqty & Hnorm).
  pose proof (item_of_part_inv _ _ _ Hit) as (_ & Hpos & Hs & Hp & Hd & Hc).
  repeat split; eauto.
  unfold item_of_part in Hit.
  destruct (search_group1 QTY_GROUP QTY_REST (strip part)); [|discriminate].
  destruct (py_float _); [|discriminate].
  destruct (normalize_product (strip part)); [|discriminate].
  injection Hit as <-. reflexivity.
Qed.

Lemma split_product_items_sound_witness :
  In item_white (split_product_items row_scenario) /\
  normalize_product (raw_name item_white) = Some (product item_white) /\
  carrier item_white = row_carrier row_scenario.
Proof.
  assert (In item_white (split_product_items row_scenario)) as Hin
    by (vm_compute; left; reflexivity).
  destruct (split_product_items_sound row_scenario item_white Hin)
    as (_ & _ & _ & Hn & _ & _ & _ & Hc & _).
  split; [exact Hin | split; [exact Hn | exact Hc]].
Defined.

(** X3: a product cell without 吨 gives no item, whatever else it holds. *)
Theorem split_product_items_needs_unit (row : TrackRow) :
  contains (u "吨") (row_product row) = false ->
  split_product_items row = [].
Proof.
  intros Hno. destruct (split_product_items row) as [|it its] eqn:Hitems;
    [reflexivity | exfalso].
  assert (In it (split_product_items row)) as Hin
    by (rewrite Hitems; left; reflexivity).
  unfold split_product_items in Hin. apply list_elem_of_In in Hin.
  apply list_elem_of_omap in Hin as (part & Hpart & Hit).
  apply list_elem_of_In in Hpart.
  apply item_of_part_sound in Hit as (Hraw & (a & g & sp & b & Hname & _ & _) & _).
  assert (contains (u "吨") (raw_name it) = true) as Hc.
  { apply contains_spec. exists (a ++ g ++ sp), b.
    rewrite Hname, <- !app_assoc. reflexivity. }
  rewrite Hraw in Hc. destruct (strip_infix part) as (x & y & Hx).
  apply (contains_infix _ x _ y) in Hc. rewrite <- Hx in Hc.
  destruct (re_split_infix _ _ _ Hpart) as (x' & y' & Hy).
  apply (contains_infix _ x' _ y') in Hc. rewrite <- Hy in Hc. congruence.
Qed.

Lemma split_product_items_needs_unit_witness :
  contains (u "吨") (row_product row_no_unit) = false /\
  split_product_items row_no_unit = [].
Proof.
  split; [vm_compute; reflexivity |].
  apply (split_product_items_needs_unit row_no_unit). vm_compute. reflexivity.
Defined.
(** ** The stock table *)

Lemma normalize_or_self_cases (x : text) :
  In (normalize_or_self x) (map snd RULES) \/
  (normalize_or_self x = x /\
   (normalize_product x = None \/ normalize_product x = Some [])).
Proof.
  unfold normalize_or_self.
  destruct (normalize_product x) as [[|c t]|] eqn:Hn; [tauto | | tauto].
  left. exact (first_rule_target _ _ _ Hn).
Qed.

(** X4: the replacement of 棕色0号优镁粉 by 棕色2号优镁粉 never changes a
    stock name: normalisation has already mapped that name to
    棕色2号优镁粉. *)
Theorem brown_correction_idle (x : text) :
  fix_brown (normalize_or_self x) = normalize_or_self x.
Proof.
  unfold fix_brown, text_eqb.
  destruct (decide (normalize_or_self x = u "棕色0号优镁粉")) as [Heq|Hne];
    [exfalso | rewrite (bool_decide_eq_false_2 _ Hne); reflexivity].
  destruct (normalize_or_self_cases x) as [Hin | [Hx Hn]].
  - rewrite Heq in Hin.
    assert (existsb (text_eqb (u "棕色0号优镁粉")) (map snd RULES) = false)
      as Hnot by (vm_compute; reflexivity).
    assert (existsb (text_eqb (u "棕色0号优镁粉")) (map snd RULES) = true)
      as Hyes.
    { apply existsb_exists. eexists. split; [exact Hin |].
      apply bool_decide_eq_true. reflexivity. }
    congruence.
  - rewrite Hx in Heq. subst x.
    assert (normalize_product (u "棕色0号优镁粉") = Some (u "棕色2号优镁粉"))
      as Hb by (vm_compute; reflexivity).
    rewrite Hb in Hn. destruct Hn as [Hn | Hn]; [discriminate |].
    injection Hn as Hn. vm_compute in Hn. discriminate.
Qed.

Lemma isin_In (x : text) (l : list text) : isin x l = true <-> In x l.
Proof.
  unfold isin. rewrite existsb_exists. split.
  - intros (y & Hy & Heq). apply bool_decide_eq_true in Heq. subst. exact Hy.
  - intros Hx. exists x. split; [exact Hx | apply bool_decide_eq_true; reflexivity].
Qed.

Lemma fold_stock_add_lookup (l : list StockRow)
    (m : gmap (list N) StockAgg) (k : text) :
  (from_option agg_actual 0 (fold_left stock_add l m !! k)
   == from_option agg_actual 0 (m !! k)
      + Qsum (map (fun r => default 0 (st_actual r)) (stock_rows_of k l)))%Q /\
  (from_option agg_recorded 0 (fold_left stock_add l m !! k)
   == from_option agg_recorded 0 (m !! k)
      + Qsum (map (fun r => default 0 (st_recorded r)) (stock_rows_of k l)))%Q /\
  from_option agg_notes [] (fold_left stock_add l m !! k)
  = from_option agg_notes [] (m !! k) ++ omap st_note (stock_rows_of k l).
Proof.
  revert m. induction l as [|r l IH]; intros m.
  - unfold stock_rows_of, Qsum. simpl. rewrite app_nil_r.
    repeat split; ring.
  - cbn [fold_left]. destruct (IH (stock_add m r)) as (IHa & IHr & IHn).
    rewrite IHa, IHr, IHn. clear IH IHa IHr IHn.
    unfold stock_add, stock_rows_of, text_eqb. cbn [List.filter].
    destruct (decide (stock_product r = k)) as [Heq|Hne].
    + rewrite (bool_decide_eq_true_2 _ Heq). rewrite Heq, lookup_insert_eq.
      cbn [from_option agg_actual agg_recorded agg_notes map omap list_omap].
      rewrite !Qsum_cons.
      destruct (m !! k) as [a|]; cbn [default from_option agg_actual
                                      agg_recorded agg_notes].
      * unfold id. repeat split; [ring | ring |].
        destruct (st_note r); cbn [option_list]; rewrite <- ?app_assoc;
          reflexivity.
      * unfold id. repeat split; [ring | ring |].
        destruct (st_note r); reflexivity.
    + rewrite (bool_decide_eq_false_2 _ Hne).
      rewrite lookup_insert_ne by exact Hne. repeat split; reflexivity.
Qed.

Lemma stock_rows_of_preferred (c : text) (stock : list StockRow) :
  In c PREFERRED_ORDER ->
  stock_rows_of c
    (List.filter (fun r => isin (stock_product r) PREFERRED_ORDER) stock)
  = stock_rows_of c stock.
Proof.
  intros Hc. unfold stock_rows_of.
  induction stock as [|r stock IH]; [reflexivity |]. cbn [List.filter].
  unfold text_eqb in *.
  destruct (decide (stock_product r = c)) as [Heq|Hne].
  - rewrite (proj2 (isin_In _ _)) by (rewrite Heq; exact Hc).
    cbn [List.filter]. rewrite (bool_decide_eq_true_2 _ Heq), IH. reflexivity.
  - rewrite (bool_decide_eq_false_2 _ Hne).
    destruct (isin (stock_product r) PREFERRED_ORDER); [|exact IH].
    cbn [List.filter]. rewrite (bool_decide_eq_false_2 _ Hne). exact IH.
Qed.

Lemma summary_df_In (stock : list StockRow) (track : list TrackRow)
    (today cutoff : date) (r : SummaryRow) :
  In r (summary_df stock track today cutoff) ->
  In (s_product r) PREFERRED_ORDER /\
  r = summary_row (stock_df stock)
        (intransit_sum (intransit_df today (items_df track)))
        (arrive_by_cutoff cutoff (intransit_df today (items_df track)))
        (s_product r).
Proof.
  unfold summary_df. rewrite in_map_iff. intros (c & <- & Hc).
  unfold summary_products in Hc. apply filter_In in Hc as [Hc _].
  split; [exact Hc | reflexivity].
Qed.

(** X5: the stock columns of a summary row.  The actual and the recorded
    stock of a category are the sums over all stock rows whose name is
    normalised to that category, a null quantity counting as 0 and a
    category without stock row getting 0; the note joins the non-null notes
    of those rows with ； and is cut to 200 characters. *)
Theorem summary_stock_columns (stock : list StockRow) (track : list TrackRow)
    (today cutoff : date) (r : SummaryRow) :
  In r (summary_df stock track today cutoff) ->
  (s_actual r ==
     Qsum (map (fun x => default 0 (st_actual x))
               (stock_rows_of (s_product r) stock)))%Q /\
  (s_recorded r ==
     Qsum (map (fun x => default 0 (st_recorded x))
               (stock_rows_of (s_product r) stock)))%Q /\
  s_note r
  = take 200 (join (u "；") (omap st_note (stock_rows_of (s_product r) stock))) /\
  (length (s_note r) <= 200)%nat.
Proof.
  intros Hr. apply summary_df_In in Hr as [Hc Hr].
  set (c := s_product r) in *.
  destruct (fold_stock_add_lookup
              (List.filter (fun x => isin (stock_product x) PREFERRED_ORDER) stock)
              ∅ c) as (Ha & Hrec & Hn).
  rewrite (stock_rows_of_preferred c stock Hc) in Ha, Hrec, Hn.
  rewrite lookup_empty in Ha, Hrec, Hn. cbn [from_option] in Ha, Hrec, Hn.
  rewrite app_nil_l in Hn.
  fold (stock_df stock) in Ha, Hrec, Hn.
  assert (s_note r
          = take 200 (join (u "；") (omap st_note (stock_rows_of c stock))))
    as Hnote.
  { rewrite Hr. cbn [summary_row s_note]. unfold note_text.
    destruct (stock_df stock !! c) as [a|] eqn:Hs; cbn [from_option] in *.
    - rewrite Hn. reflexivity.
    - rewrite <- Hn. reflexivity. }
  repeat split.
  - rewrite Hr. cbn [summary_row s_actual]. rewrite Ha. ring.
  - rewrite Hr. cbn [summary_row s_recorded]. rewrite Hrec. ring.
  - exact Hnote.
  - rewrite Hnote. rewrite length_take. lia.
Qed.

Lemma summary_stock_columns_witness :
  In summary_white
     (summary_df [stock_white] [row_scenario]
                 (mkdate 2024 3 1) (mkdate 2024 3 10)) /\
  (s_actual summary_white ==
     Qsum (map (fun x => default 0 (st_actual x))
               (stock_rows_of (s_product summary_white) [stock_white])))%Q.
Proof.
  assert (In summary_white
            (summary_df [stock_white] [row_scenario]
                        (mkdate 2024 3 1) (mkdate 2024 3 10))) as Hin
    by (vm_compute; left; reflexivity).
  split; [exact Hin |].
  exact (proj1 (summary_stock_columns [stock_white] [row_scenario]
                  (mkdate 2024 3 1) (mkdate 2024 3 10) summary_white Hin)).
Defined.
(** ** The rows of the summary *)

Lemma filter_sublist {A : Type} (f : A -> bool) (l : list A) :
  sublist (List.filter f l) l.
Proof.
  induction l as [|x l IH]; simpl; [constructor |].
  destruct (f x); constructor; exact IH.
Qed.

Lemma PREFERRED_ORDER_NoDup : NoDup PREFERRED_ORDER.
Proof.
  apply (bool_decide_eq_true_1 (NoDup PREFERRED_ORDER)). vm_compute. reflexivity.
Qed.

Lemma summary_df_names (stock : list StockRow) (track : list TrackRow)
    (today cutoff : date) :
  map s_product (summary_df stock track today cutoff)
  = summary_products (stock_df stock) (intransit_df today (items_df track)).
Proof.
  unfold summary_df. rewrite List.map_map. cbn [summary_row s_product].
  apply List.map_id.
Qed.

Lemma summary_df_NoDup (stock : list StockRow) (track : list TrackRow)
    (today cutoff : date) :
  NoDup (map s_product (summary_df stock track today cutoff)).
Proof.
  rewrite summary_df_names.
  apply (sublist_NoDup _ PREFERRED_ORDER);
    [apply PREFERRED_ORDER_NoDup | apply filter_sublist].
Qed.

(** X6: which rows the summary has.  Its categories are names of
    [PREFERRED_ORDER], each once and in the order of that list.  A name of
    the list has a row exactly when some stock row is normalised to it or
    some in-transit item of that category has a label; an in-transit item
    without label, of a category without stock row and without labelled
    item, is in no row of the summary. *)
Theorem summary_categories (stock : list StockRow) (track : list TrackRow)
    (today cutoff : date) :
  sublist (map s_product (summary_df stock track today cutoff)) PREFERRED_ORDER /\
  NoDup (map s_product (summary_df stock track today cutoff)) /\
  (forall c : text,
     In c (map s_product (summary_df stock track today cutoff)) <->
     In c PREFERRED_ORDER /\
     ((exists r, In r stock /\ stock_product r = c) \/
      (exists it, In it (intransit_df today (items_df track)) /\
                  product it = c /\ label_for it <> None))).
Proof.
  split; [| split].
  - rewrite summary_df_names. apply filter_sublist.
  - apply summary_df_NoDup.
  - intros c. apply summary_df_products.
Qed.

Lemma Qsum_filter_sub (p g : Item -> bool) (l : list Item) :
  (forall it, In it l -> (0 <= qty it)%Q) ->
  (Qsum (map qty (List.filter g (List.filter p l)))
   <= Qsum (map qty (List.filter g l)))%Q.
Proof.
  intros Hpos.
  assert (List.filter (fun _ : Item => true) l = l) as Hid.
  { induction l as [|x l IH]; [reflexivity |]. simpl. f_equal.
    apply IH. intros it Hit. apply Hpos. right; exact Hit. }
  apply (Qle_trans _ (Qsum (map qty (List.filter g
                                       (List.filter (fun _ => true) l))))).
  - apply Qsum_filter_mono; [exact Hpos | reflexivity].
  - rewrite Hid. apply Qle_refl.
Qed.

Lemma Qsum_map_nonneg (l : list Item) :
  (forall it, In it l -> (0 <= qty it)%Q) -> (0 <= Qsum (map qty l))%Q.
Proof.
  intros Hpos. apply Qsum_nonneg. intros x Hx.
  apply in_map_iff in Hx as (it & <- & Hit). exact (Hpos it Hit).
Qed.

Lemma intransit_qty_nonneg (track : list TrackRow) (today : date) (it : Item) :
  In it (intransit_df today (items_df track)) -> (0 <= qty it)%Q.
Proof.
  intros Hit. apply intransit_df_In in Hit as [Hit _].
  exact (items_df_qty_nonneg _ _ Hit).
Qed.

(** X7: the in-transit columns of a summary row, as the script computes
    them.  The in-transit total is the sum of the quantities of all
    in-transit items of the category.  The arrival by the cut-off is the sum
    over those of them whose arrival, the warehouse one or else the port
    one, is a time stamp not after midnight of the cut-off day: an earlier
    day, or that very midnight.  The projected stock is the actual stock
    plus that arrival. *)
Theorem summary_intransit_columns (stock : list StockRow)
    (track : list TrackRow) (today cutoff : date) (r : SummaryRow) :
  In r (summary_df stock track today cutoff) ->
  (s_intransit r ==
     Qsum (group_qty product (s_product r)
             (intransit_df today (items_df track))))%Q /\
  (s_arrive r ==
     Qsum (group_qty product (s_product r)
             (List.filter (arrives_by cutoff)
                          (intransit_df today (items_df track)))))%Q /\
  s_projected r = (s_actual r + s_arrive r)%Q /\
  (forall it : Item,
     arrives_by cutoff it = true <->
     exists t, eta_col it = Some t /\
               (ts_date t < cutoff \/ t = to_datetime cutoff)).
Proof.
  intros Hr. apply summary_df_In in Hr as [_ Hr]. repeat split.
  - rewrite Hr. cbn [summary_row s_intransit s_product].
    unfold intransit_sum. apply groupby_sum_lookup.
  - rewrite Hr. cbn [summary_row s_arrive s_product].
    unfold arrive_by_cutoff. apply groupby_sum_lookup.
  - rewrite Hr. reflexivity.
  - apply arrives_by_spec.
  - apply arrives_by_spec.
Qed.

Lemma summary_intransit_columns_witness :
  In summary_white
     (summary_df [stock_white] [row_scenario]
                 (mkdate 2024 3 1) (mkdate 2024 3 10)) /\
  s_projected summary_white
  = (s_actual summary_white + s_arrive summary_white)%Q.
Proof.
  assert (In summary_white
            (summary_df [stock_white] [row_scenario]
                        (mkdate 2024 3 1) (mkdate 2024 3 10))) as Hin
    by (vm_compute; left; reflexivity).
  split; [exact Hin |].
  exact (proj1 (proj2 (proj2
           (summary_intransit_columns [stock_white] [row_scenario]
              (mkdate 2024 3 1) (mkdate 2024 3 10) summary_white Hin)))).
Defined.

Lemma summary_row_bounds (stock : list StockRow) (track : list TrackRow)
    (today cutoff : date) (c : text) :
  let r := summary_row (stock_df stock)
             (intransit_sum (intransit_df today (items_df track)))
             (arrive_by_cutoff cutoff (intransit_df today (items_df track))) c in
  (0 <= s_arrive r)%Q /\ (s_arrive r <= s_intransit r)%Q.
Proof.
  cbn [summary_row s_arrive s_intransit]. unfold arrive_by_cutoff, intransit_sum.
  rewrite !groupby_sum_lookup. unfold group_qty. split.
  - apply Qsum_map_nonneg. intros it Hit.
    apply filter_In in Hit as [Hit _]. apply filter_In in Hit as [Hit _].
    exact (intransit_qty_nonneg _ _ _ Hit).
  - apply Qsum_filter_sub. intros it. apply intransit_qty_nonneg.
Qed.

(** X8: in every row of the summary the arrival by the cut-off is between 0
    and the in-transit total, so the projected stock lies between the actual
    stock and the actual stock plus everything in transit. *)
Theorem summary_row_bounded (stock : list StockRow) (track : list TrackRow)
    (today cutoff : date) (r : SummaryRow) :
  In r (summary_df stock track today cutoff) ->
  (0 <= s_arrive r)%Q /\ (s_arrive r <= s_intransit r)%Q /\
  (s_actual r <= s_projected r)%Q /\
  (s_projected r <= s_actual r + s_intransit r)%Q.
Proof.
  intros Hr. apply summary_df_In in Hr as [_ Hr].
  destruct (summary_row_bounds stock track today cutoff (s_product r))
    as [H0 H1].
  cbv zeta in H0, H1. rewrite <- Hr in H0, H1.
  assert (s_projected r = (s_actual r + s_arrive r)%Q) as ->
    by (rewrite Hr; reflexivity).
  repeat split; [exact H0 | exact H1 | |].
  - rewrite <- (Qplus_0_r (s_actual r)) at 1.
    apply Qplus_le_compat; [apply Qle_refl | exact H0].
  - apply Qplus_le_compat; [apply Qle_refl | exact H1].
Qed.

Lemma summary_row_bounded_witness :
  In summary_white
     (summary_df [stock_white] [row_scenario]
                 (mkdate 2024 3 1) (mkdate 2024 3 10)) /\
  (0 <= s_arrive summary_white)%Q /\
  (s_arrive summary_white <= s_intransit summary_white)%Q /\
  (s_actual summary_white <= s_projected summary_white)%Q /\
  (s_projected summary_white
   <= s_actual summary_white + s_intransit summary_white)%Q.
Proof.
  assert (In summary_white
            (summary_df [stock_white] [row_scenario]
                        (mkdate 2024 3 1) (mkdate 2024 3 10))) as Hin
    by (vm_compute; left; reflexivity).
  split; [exact Hin |].
  exact (summary_row_bounded [stock_white] [row_scenario]
           (mkdate 2024 3 1) (mkdate 2024 3 10) summary_white Hin).
Defined.
(** ** Sums over several groups *)

Lemma Qsum_map_Qeq {A : Type} (f g : A -> Q) (l : list A) :
  (forall x, In x l -> (f x == g x)%Q) ->
  (Qsum (map f l) == Qsum (map g l))%Q.
Proof.
  induction l as [|x l IH]; intros Hfg; [reflexivity |]. cbn [map].
  rewrite !Qsum_cons, (Hfg x (or_introl eq_refl)), IH; [reflexivity |].
  intros y Hy. apply Hfg. right; exact Hy.
Qed.

Lemma Qsum_filter_split (p g : Item -> bool) (l : list Item) :
  (Qsum (map qty (List.filter g l))
   == Qsum (map qty (List.filter g (List.filter p l)))
      + Qsum (map qty (List.filter g (List.filter (fun it => negb (p it)) l))))%Q.
Proof.
  induction l as [|x l IH]; [unfold Qsum; simpl; ring |].
  cbn [List.filter]. destruct (p x); cbn [negb List.filter];
    destruct (g x); cbn [map]; rewrite ?Qsum_cons, IH; ring.
Qed.

Section Groups.

Context `{Countable K} (key : Item -> K).

Lemma group_qty_nil (l : list Item) :
  List.filter (fun it => bool_decide (key it ∈ @nil K)) l = [].
Proof.
  induction l as [|x l IH]; [reflexivity |]. cbn [List.filter].
  rewrite bool_decide_eq_false_2 by apply not_elem_of_nil. exact IH.
Qed.

(** The sums of the groups of distinct keys add up to the sum over the rows
    that have one of these keys. *)
Lemma Qsum_groups (ks : list K) (l : list Item) :
  NoDup ks ->
  (Qsum (map (fun k => Qsum (group_qty key k l)) ks)
   == Qsum (map qty (List.filter (fun it => bool_decide (key it ∈ ks)) l)))%Q.
Proof.
  induction ks as [|k ks IH]; intros Hnd.
  - rewrite group_qty_nil. reflexivity.
  - apply NoDup_cons in Hnd as [Hk Hnd]. cbn [map].
    rewrite Qsum_cons, (IH Hnd). clear IH. unfold group_qty.
    induction l as [|x l IHl]; [unfold Qsum; simpl; ring |].
    cbn [List.filter].
    destruct (decide (key x = k)) as [Heq|Hne].
    + rewrite (bool_decide_eq_true_2 _ Heq).
      rewrite (bool_decide_eq_true_2 (key x ∈ k :: ks))
        by (rewrite Heq; left).
      rewrite (bool_decide_eq_false_2 (key x ∈ ks)) by (rewrite Heq; exact Hk).
      cbn [map]. rewrite !Qsum_cons, <- IHl. ring.
    + rewrite (bool_decide_eq_false_2 _ Hne).
      destruct (decide (key x ∈ ks)) as [Hin|Hnin].
      * rewrite (bool_decide_eq_true_2 _ Hin).
        rewrite (bool_decide_eq_true_2 (key x ∈ k :: ks)) by (right; exact Hin).
        cbn [map]. rewrite !Qsum_cons, <- IHl. ring.
      * rewrite (bool_decide_eq_false_2 _ Hnin).
        rewrite (bool_decide_eq_false_2 (key x ∈ k :: ks)); [exact IHl |].
        rewrite elem_of_cons. tauto.
Qed.

End Groups.

Lemma isin_elem_of (x : text) (l : list text) :
  isin x l = bool_decide (x ∈ l).
Proof.
  destruct (isin x l) eqn:Hx.
  - symmetry. apply bool_decide_eq_true, list_elem_of_In, isin_In. exact Hx.
  - symmetry. apply bool_decide_eq_false. rewrite list_elem_of_In, <- isin_In.
    congruence.
Qed.

(** ** The totals *)

Lemma summary_rows_projected (rows : list SummaryRow) :
  (forall r, In r rows -> s_projected r = (s_actual r + s_arrive r)%Q) ->
  (Qsum (map s_projected rows)
   == Qsum (map s_actual rows) + Qsum (map s_arrive rows))%Q.
Proof.
  induction rows as [|r rows IH]; intros Hr; [unfold Qsum; simpl; ring |].
  cbn [map]. rewrite !Qsum_cons, (Hr r (or_introl eq_refl)), IH; [ring |].
  intros r' Hr'. apply Hr. right; exact Hr'.
Qed.

Lemma Qsum_map_le {A : Type} (f g : A -> Q) (l : list A) :
  (forall x, In x l -> (f x <= g x)%Q) ->
  (Qsum (map f l) <= Qsum (map g l))%Q.
Proof.
  induction l as [|x l IH]; intros Hfg; [apply Qle_refl |]. cbn [map].
  rewrite !Qsum_cons. apply Qplus_le_compat.
  - apply Hfg. left; reflexivity.
  - apply IH. intros y Hy. apply Hfg. right; exact Hy.
Qed.

(** X9: the totals under the summary.  The total of the projected stock is
    the total of the actual stock plus the total of the arrivals by the
    cut-off; the total in transit is the quantity of the in-transit items
    whose category has a row, so it is at most the quantity of all
    in-transit items, and the total of the arrivals is at most the total in
    transit. *)
Theorem total_row_composes (stock : list StockRow) (track : list TrackRow)
    (today cutoff : date) :
  (t_projected (total_row (summary_df stock track today cutoff))
   == t_actual (total_row (summary_df stock track today cutoff))
      + t_arrive (total_row (summary_df stock track today cutoff)))%Q /\
  (t_intransit (total_row (summary_df stock track today cutoff))
   == Qsum (map qty
             (List.filter
                (fun it => isin (product it)
                             (map s_product (summary_df stock track today cutoff)))
                (intransit_df today (items_df track)))))%Q /\
  (t_intransit (total_row (summary_df stock track today cutoff))
   <= Qsum (map qty (intransit_df today (items_df track))))%Q /\
  (t_arrive (total_row (summary_df stock track today cutoff))
   <= t_intransit (total_row (summary_df stock track today cutoff)))%Q.
Proof.
  cbn [total_row t_projected t_actual t_arrive t_intransit].
  assert (t_in : (Qsum (map s_intransit (summary_df stock track today cutoff))
     == Qsum (map qty
             (List.filter
                (fun it => isin (product it)
                             (map s_product (summary_df stock track today cutoff)))
                (intransit_df today (items_df track)))))%Q).
  { rewrite (List.filter_ext _
               (fun it => bool_decide
                  (product it ∈ map s_product (summary_df stock track today cutoff))))
      by (intros it; apply isin_elem_of).
    rewrite <- (Qsum_groups product)
      by apply summary_df_NoDup.
    rewrite List.map_map. apply Qsum_map_Qeq. intros r Hr.
    apply summary_df_In in Hr as [_ Hr]. rewrite Hr at 1.
    cbn [summary_row s_intransit s_product]. unfold intransit_sum.
    apply groupby_sum_lookup. }
  split; [| split; [exact t_in | split]].
  - apply summary_rows_projected. intros r Hr.
    apply summary_df_In in Hr as [_ Hr]. rewrite Hr. reflexivity.
  - rewrite t_in.
    pose proof (Qsum_filter_sub
                  (fun it => isin (product it)
                     (map s_product (summary_df stock track today cutoff)))
                  (fun _ => true)
                  (intransit_df today (items_df track))
                  (intransit_qty_nonneg track today)) as Hle.
    assert (forall l : list Item, List.filter (fun _ => true) l = l) as Hid.
    { induction l as [|x l IH]; [reflexivity |]. simpl. f_equal. exact IH. }
    rewrite !Hid in Hle. exact Hle.
  - apply Qsum_map_le. intros r Hr. apply summary_df_In in Hr as [_ Hr].
    pose proof (summary_row_bounds stock track today cutoff (s_product r))
      as [_ Hle].
    cbv zeta in Hle. rewrite <- Hr in Hle. exact Hle.
Qed.
(** ** In transit as [today] moves *)

Lemma is_intransit_mono (t1 t2 : date) (it : Item) :
  t1 <= t2 -> is_intransit t2 it = true -> is_intransit t1 it = true.
Proof.
  unfold is_intransit, to_datetime, NS_PER_DAY. intros Ht.
  destruct (eta_dest it) as [t|]; [|reflexivity].
  rewrite !Z.leb_le. lia.
Qed.

(** X10: a later [today] never adds an in-transit item: with [t1 <= t2] the
    items in transit on [t2] are in transit on [t1], in the same order, and
    no category has more in transit on [t2] than on [t1]. *)
Theorem intransit_shrinks (track : list TrackRow) (t1 t2 : date) :
  t1 <= t2 ->
  sublist (intransit_df t2 (items_df track)) (intransit_df t1 (items_df track)) /\
  (forall c : text,
     (default 0 (intransit_sum (intransit_df t2 (items_df track)) !! c)
      <= default 0 (intransit_sum (intransit_df t1 (items_df track)) !! c))%Q).
Proof.
  intros Ht. split.
  - unfold intransit_df. induction (items_df track) as [|x l IH];
      [constructor |]. cbn [List.filter].
    destruct (is_intransit t2 x) eqn:H2.
    + rewrite (is_intransit_mono t1 t2 x Ht H2). constructor. exact IH.
    + destruct (is_intransit t1 x); [constructor |]; exact IH.
  - intros c. unfold intransit_sum. rewrite !groupby_sum_lookup.
    unfold group_qty, intransit_df. apply Qsum_filter_mono.
    + apply items_df_qty_nonneg.
    + intros it. apply is_intransit_mono, Ht.
Qed.

Lemma intransit_shrinks_witness :
  sublist (intransit_df (mkdate 2024 3 6) (items_df [row_no_port; row_brown]))
          (intransit_df (mkdate 2024 3 1) (items_df [row_no_port; row_brown])).
Proof.
  refine (proj1 (intransit_shrinks [row_no_port; row_brown]
                   (mkdate 2024 3 1) (mkdate 2024 3 6) _)).
  apply Z.leb_le. vm_compute. reflexivity.
Defined.

(** ** Label buckets *)

(** X11: no quantity is lost between the in-transit total and the label
    buckets.  For any list of distinct labels that has the label of every
    labelled item, the in-transit quantity of a category is the sum of its
    buckets over these labels plus the quantity of its items without label;
    each bucket holds the quantity of the labelled items of that category
    and label. *)
Theorem label_buckets_conserve (intransit : list Item) (c : text)
    (cols : list text) :
  NoDup cols ->
  (forall it lab, In it intransit -> label_for it = Some lab -> In lab cols) ->
  (default 0 (intransit_sum intransit !! c)
   == Qsum (map (fun lab => default 0 (lab_tbl intransit !! (c, lab))) cols)
      + Qsum (group_qty product c
                (List.filter (fun it => isna (label_for it)) intransit)))%Q /\
  (forall lab : text,
     (default 0 (lab_tbl intransit !! (c, lab))
      == Qsum (map qty
                (List.filter
                   (fun it => bool_decide (product it = c /\
                                           label_for it = Some lab))
                   intransit)))%Q).
Proof.
  intros Hnd Hcols. split.
  - unfold intransit_sum. rewrite groupby_sum_lookup. unfold group_qty at 1.
    rewrite (Qsum_filter_split (fun it => negb (isna (label_for it)))).
    fold (labelled intransit).
    rewrite (List.filter_ext (fun it => negb (negb (isna (label_for it))))
                             (fun it => isna (label_for it)))
      by (intros it; apply negb_involutive).
    unfold group_qty. apply Qplus_inj_r.
    rewrite (Qsum_map_Qeq _
               (fun lab => Qsum (group_qty
                                   (fun it => (product it, label_or_empty it))
                                   (c, lab) (labelled intransit))))
      by (intros lab _; unfold lab_tbl; apply groupby_sum_lookup).
    assert (map (fun lab => Qsum (group_qty
                                    (fun it => (product it, label_or_empty it))
                                    (c, lab) (labelled intransit))) cols
            = map (fun k => Qsum (group_qty
                                    (fun it => (product it, label_or_empty it))
                                    k (labelled intransit)))
                  (map (pair c) cols)) as -> by (rewrite List.map_map; reflexivity).
    rewrite Qsum_groups.
    + assert (forall it, In it (labelled intransit) ->
                bool_decide (product it = c)
                = bool_decide ((product it, label_or_empty it) ∈ map (pair c) cols))
        as Hext.
      { intros it Hit. unfold labelled in Hit. apply filter_In in Hit as [Hit Hlab].
        destruct (label_for it) as [lab|] eqn:Hl; [|discriminate].
        pose proof (Hcols it lab Hit Hl) as Hin.
        unfold label_or_empty. rewrite Hl. cbn [default from_option id].
        destruct (decide (product it = c)) as [Heq|Hne].
        - rewrite (bool_decide_eq_true_2 _ Heq). symmetry.
          apply bool_decide_eq_true, list_elem_of_In, in_map_iff.
          exists lab. rewrite Heq. split; [reflexivity | exact Hin].
        - rewrite (bool_decide_eq_false_2 _ Hne). symmetry.
          apply bool_decide_eq_false. rewrite list_elem_of_In, in_map_iff.
          intros (lab' & [= Hc _] & _). congruence. }
      rewrite (List.filter_ext_in _ _ _ Hext). reflexivity.
    + apply NoDup_ListNoDup, List.NoDup_map_inv with (f := snd).
      rewrite List.map_map. cbn [snd]. rewrite List.map_id.
      apply NoDup_ListNoDup. exact Hnd.
  - intros lab. unfold lab_tbl. rewrite groupby_sum_lookup. unfold group_qty.
    unfold labelled.
    assert (forall l : list Item,
              List.filter (fun it => bool_decide
                             ((product it, label_or_empty it) = (c, lab)))
                          (List.filter (fun it => negb (isna (label_for it))) l)
              = List.filter (fun it => bool_decide (product it = c /\
                                                    label_for it = Some lab)) l)
      as ->; [|reflexivity].
    induction l as [|x l IH]; [reflexivity |]. cbn [List.filter].
    unfold label_or_empty.
    destruct (label_for x) as [lx|] eqn:Hl; cbn [isna negb List.filter].
    + rewrite Hl. cbn [default from_option id].
      destruct (decide (product x = c /\ Some lx = Some lab)) as [[H1 H2]|Hn].
      * rewrite bool_decide_eq_true_2 by (injection H2 as ->; rewrite H1; reflexivity).
        rewrite bool_decide_eq_true_2 by tauto. f_equal. exact IH.
      * rewrite bool_decide_eq_false_2
          by (intros [= H1 H2]; apply Hn; rewrite H1, H2; tauto).
        rewrite bool_decide_eq_false_2 by exact Hn. exact IH.
    + rewrite bool_decide_eq_false_2 by (intros [_ [=]]). exact IH.
Qed.

Lemma label_buckets_conserve_witness :
  (default 0 (intransit_sum [item_white] !! u "白色粉末优镁粉")
   == Qsum (map (fun lab => default 0 (lab_tbl [item_white]
                                         !! (u "白色粉末优镁粉", lab)))
                [u "装货日期2024-03-01（4天到）"])
      + Qsum (group_qty product (u "白色粉末优镁粉")
                (List.filter (fun it => isna (label_for it)) [item_white])))%Q.
Proof.
  refine (proj1 (label_buckets_conserve [item_white] (u "白色粉末优镁粉")
                   [u "装货日期2024-03-01（4天到）"] _ _)).
  - apply NoDup_singleton.
  - intros it lab [<- | []] Hlab. vm_compute in Hlab.
    injection Hlab as <-. vm_compute. left. reflexivity.
Defined.
(** ** Labels and events as the script computes them *)

(** X12: the label of an item depends on its shipping date and its port
    arrival only.  It is missing exactly when one of the two is missing,
    whatever the warehouse arrival; otherwise it shows the shipping day and
    the number of days from the shipping day to the port arrival day, which
    may be negative. *)
Theorem label_for_as_coded (it : Item) :
  (label_for it = None <-> ship it = None \/ eta_port it = None) /\
  (forall s e : Timestamp,
     ship it = Some s -> eta_port it = Some e ->
     label_for it
     = Some (u "装货日期" ++ strftime_ymd (ts_date s) ++ u "（"
             ++ str_int (ts_date e - ts_date s) ++ u "天到）")).
Proof.
  rewrite label_for_spec. split.
  - destruct (ship it) as [s|], (eta_port it) as [e|]; split;
      try discriminate; try tauto; intros [[=] | [=]].
  - intros s e -> ->. reflexivity.
Qed.

Lemma py_or_text_default (c : cell text) :
  py_or text_truthy c (Some []) = c.
Proof. destruct c as [[|x t]|]; reflexivity. Qed.

Lemma py_or_qty_default (q : Q) : (py_or qty_truthy q 0 == q)%Q.
Proof.
  unfold py_or, qty_truthy. destruct (Qeq_bool q 0) eqn:Hq; cbn [negb].
  - apply Qeq_bool_iff in Hq. symmetry. exact Hq.
  - reflexivity.
Qed.

Lemma event_of_fields (ws we : date) (r : Item) (ev : Event) :
  event_of ws we r = Some ev ->
  (ev_qty ev == qty r)%Q /\ ev_carrier ev = carrier r /\
  ev_warehouse ev = warehouse r /\ ev_container ev = container r /\
  exists s, ship r = Some s /\
    ev_datestr ev = strftime_ymd (ts_date s) ++ u " ~ "
                    ++ strftime_ymd (end_full_of r s).
Proof.
  unfold event_of. destruct (ship r) as [s|]; [|discriminate].
  match goal with
  | |- context [if ?b then None else _] => destruct b; [discriminate |]
  end.
  intros [= <-]. cbn [ev_qty ev_carrier ev_warehouse ev_container ev_datestr].
  rewrite !py_or_text_default. repeat split; [apply py_or_qty_default |].
  exists s. split; [reflexivity |].
  rewrite !ts_date_normalize. unfold end_full_of, py_or, ts_truthy.
  destruct (eta_dest r); [reflexivity |]. rewrite ts_date_add_days. reflexivity.
Qed.

(** X13: every event lies in the window and inside the full interval of its
    item.  Its clipped interval is not empty and never longer than the day
    count of its label; the quantity, the carrier, the warehouse and the
    container are those of the item, a null cell staying null, and the date
    text shows the unclipped interval. *)
Theorem event_within_window (ws we : date) (r : Item) (ev : Event) :
  event_of ws we r = Some ev ->
  ws <= ev_start ev /\ ev_start ev <= ev_end ev /\ ev_end ev <= we /\
  1 <= ev_end ev - ev_start ev + 1 <= ev_days ev /\
  (exists s, ship r = Some s /\
             ts_date s <= ev_start ev /\ ev_end ev <= end_full_of r s /\
             ev_days ev = end_full_of r s - ts_date s + 1 /\
             ev_datestr ev = strftime_ymd (ts_date s) ++ u " ~ "
                             ++ strftime_ymd (end_full_of r s)) /\
  (ev_qty ev == qty r)%Q /\ ev_carrier ev = carrier r /\
  ev_warehouse ev = warehouse r /\ ev_container ev = container r.
Proof.
  intros Hev.
  pose proof (event_of_fields _ _ _ _ Hev) as (Hq & Hc & Hw & Hk & s' & Hs' & Hstr).
  apply event_of_inv in Hev as (s & Hs & Hstart & Hend & Hle & Hdays & _).
  rewrite Hs in Hs'. injection Hs' as <-.
  repeat split; try assumption; try lia.
  exists s. repeat split; try assumption; lia.
Qed.

Lemma event_within_window_witness :
  event_of (mkdate 2024 3 1) (mkdate 2024 3 14) item_white = Some event_white /\
  mkdate 2024 3 1 <= ev_start event_white /\
  ev_end event_white <= mkdate 2024 3 14 /\
  ev_carrier event_white = carrier item_white.
Proof.
  assert (event_of (mkdate 2024 3 1) (mkdate 2024 3 14) item_white
          = Some event_white) as Hev by (vm_compute; reflexivity).
  destruct (event_within_window _ _ _ _ Hev)
    as (H1 & _ & H3 & _ & _ & _ & H7 & _).
  split; [exact Hev | split; [exact H1 | split; [exact H3 | exact H7]]].
Defined.

(** X14: when an item gives no event.  Exactly when it has no shipping date,
    or its last day (the warehouse arrival day, or seven days after shipping
    without one) is before its shipping day, or before the window, or its
    shipping day is after the window, or the window is empty. *)
Theorem event_of_none_cases (ws we : date) (r : Item) :
  event_of ws we r = None <->
  ship r = None \/
  exists s, ship r = Some s /\
            (end_full_of r s < ts_date s \/ end_full_of r s < ws \/
             we < ts_date s \/ we < ws).
Proof.
  rewrite event_of_none. split.
  - intros [Hs | (s & Hs & Hlt)]; [left; exact Hs | right].
    exists s. split; [exact Hs | lia].
  - intros [Hs | (s & Hs & Hlt)]; [left; exact Hs | right].
    exists s. split; [exact Hs | lia].
Qed.

(** X15: a window of no day, [days <= 0], has no event, for any product and
    any table. *)
Theorem make_events_empty_window (intransit : list Item) (prod : text)
    (window_start days : Z) :
  days <= 0 ->
  make_events_for_product intransit prod window_start days = [].
Proof.
  intros Hdays. unfold make_events_for_product.
  induction (List.filter (fun r => text_eqb (product r) prod) intransit)
    as [|r l IH]; [reflexivity |].
  cbn [omap list_omap]. rewrite IH.
  assert (event_of window_start (window_start + (days - 1)) r = None) as ->;
    [|reflexivity].
  apply event_of_none. destruct (ship r) as [s|]; [right | left; reflexivity].
  exists s. split; [reflexivity | lia].
Qed.

Lemma make_events_empty_window_witness :
  make_events_for_product
    (intransit_df (mkdate 2024 1 1) (items_df [row_ten_days]))
    (u "白色粉末优镁粉") (mkdate 2024 1 5) 0 = [].
Proof.
  apply (make_events_empty_window
           (intransit_df (mkdate 2024 1 1) (items_df [row_ten_days]))
           (u "白色粉末优镁粉") (mkdate 2024 1 5) 0).
  lia.
Defined.
(** ** The week grid *)


Lemma civil_day_pos (z : date) :
  match civil z with (_, _, d) => 1 <= d end.
Proof.
  unfold civil.
  set (z' := z + 719468).
  set (era := z' / 146097).
  set (doe := z' - era * 146097).
  assert (0 <= doe < 146097) as Hdoe by (subst doe era; div_lia).
  clearbody doe. clear z' era.
  set (yoe := (doe - doe / 1460 + doe / 36524 - doe / 146096) / 365).
  set (doy := doe - (365 * yoe + yoe / 4 - yoe / 100)).
  assert (0 <= doy <= 365) as Hdoy by (subst doy yoe; div_lia).
  clearbody doy. div_lia.
Qed.

Lemma mkdate_day (y m d : Z) : mkdate y m d = mkdate y m 1 + (d - 1).
Proof. unfold mkdate. lia. Qed.

(** The month of a day begins on or before that day. *)
Lemma civil_first_le (z : date) :
  match civil z with (y, m, _) => mkdate y m 1 <= z end.
Proof.
  pose proof (mkdate_civil z) as H. pose proof (civil_day_pos z) as Hd.
  destruct (civil z) as [[y m] d]. rewrite mkdate_day in H. lia.
Qed.

Lemma months_from_cover (fuel : nat) (y m : Z) (window_end d : date) :
  1 <= m <= 12 ->
  mkdate y m 1 <= d <= window_end ->
  window_end - mkdate y m 1 < 28 * Z.of_nat fuel ->
  exists y' m', In (y', m') (months_from fuel y m window_end) /\
                1 <= m' <= 12 /\
                mkdate y' m' 1 <= d < next_first y' m'.
Proof.
  revert y m. induction fuel as [|fuel IH]; intros y m Hm Hd Hfuel; [lia |].
  cbn [months_from].
  destruct (Z.leb_spec (mkdate y m 1) window_end) as [_|Hgt]; [|lia].
  destruct (Z_lt_le_dec d (next_first y m)) as [Hlt|Hge].
  - exists y, m. split; [left; reflexivity |]. split; [exact Hm | lia].
  - pose proof (month_step y m Hm) as Hstep. unfold next_first in Hge.
    destruct (Z.eqb_spec m 12) as [->|Hne].
    + destruct (IH (y + 1) 1) as (y' & m' & Hin & H1 & H2); [lia | lia | lia |].
      exists y', m'. split; [right; exact Hin | tauto].
    + destruct (IH y (m + 1)) as (y' & m' & Hin & H1 & H2); [lia | lia | lia |].
      exists y', m'. split; [right; exact Hin | tauto].
Qed.

Lemma months_cover (window_start window_end d : date) :
  window_start <= d <= window_end ->
  exists y m, In (y, m) (months window_start window_end) /\
              1 <= m <= 12 /\ mkdate y m 1 <= d < next_first y m.
Proof.
  intros Hd. unfold months.
  pose proof (civil_month_range window_start) as Hm.
  pose proof (civil_first_le window_start) as Hf.
  destruct (civil window_start) as [[y m] dd].
  apply months_from_cover; [exact Hm | lia | lia].
Qed.

Lemma months_from_range (fuel : nat) (y m : Z) (window_end : date)
    (y' m' : Z) :
  1 <= m <= 12 ->
  In (y', m') (months_from fuel y m window_end) ->
  1 <= m' <= 12 /\ mkdate y m 1 <= mkdate y' m' 1 <= window_end.
Proof.
  revert y m. induction fuel as [|fuel IH]; intros y m Hm Hin; [destruct Hin |].
  cbn [months_from] in Hin.
  destruct (Z.leb_spec (mkdate y m 1) window_end) as [Hle|Hgt];
    [|destruct Hin].
  destruct Hin as [[= <- <-] | Hin]; [lia |].
  pose proof (month_step y m Hm) as Hstep.
  destruct (Z.eqb_spec m 12) as [->|Hne].
  - apply IH in Hin; lia.
  - apply IH in Hin; lia.
Qed.

Lemma seqZ_0_7 : seqZ 0 7 = [0; 1; 2; 3; 4; 5; 6].
Proof. reflexivity. Qed.

Lemma weekday_monday (d : date) : weekday (d - weekday d) = 0.
Proof. unfold weekday. div_lia. Qed.

Lemma weekday_offset (d k : Z) :
  weekday d = 0 -> 0 <= k <= 6 -> weekday (d + k) = k.
Proof. unfold weekday. intros H Hk. div_lia. Qed.

(** Every week of [monthdatescalendar] is seven consecutive days from a
    Monday. *)
Lemma monthdatescalendar_week (y m : Z) (week : list date) :
  In week (monthdatescalendar y m) ->
  exists mon, week = [mon; mon + 1; mon + 2; mon + 3; mon + 4; mon + 5; mon + 6]
              /\ weekday mon = 0.
Proof.
  unfold monthdatescalendar. intros Hin. apply in_map_iff in Hin as (w & <- & Hw).
  apply list_elem_of_In, elem_of_seqZ in Hw.
  exists (mkdate y m 1 - weekday (mkdate y m 1) + 7 * w). split.
  - rewrite seqZ_0_7. cbn [map]. f_equal. lia.
  - pose proof (weekday_monday (mkdate y m 1)) as H. unfold weekday in *.
    div_lia.
Qed.

(** The weeks of a month cover every day of the month. *)
Lemma monthdatescalendar_cover (y m : Z) (d : date) :
  mkdate y m 1 <= d < next_first y m ->
  exists week, In week (monthdatescalendar y m) /\
               List.hd 0 week <= d <= List.last week 0.
Proof.
  intros Hd. unfold monthdatescalendar. fold (next_first y m).
  set (first := mkdate y m 1) in *. set (start := first - weekday first).
  assert (start <= first) as Hs by (subst start; unfold weekday; div_lia).
  set (w := (d - start) / 7).
  exists (map (fun i => start + 7 * w + i) (seqZ 0 7)). split.
  - apply in_map_iff. exists w. split; [reflexivity |].
    apply list_elem_of_In, elem_of_seqZ. subst w. div_lia.
  - rewrite seqZ_0_7. cbn [map List.hd List.last]. subst w. div_lia.
Qed.

Lemma bar_of_inv (cm : gmap (list N) (list N)) (mon : date) (ev : Event)
    (b : Bar) :
  weekday mon = 0 ->
  bar_of cm mon (mon + 6) ev = Some b ->
  bar_event b = ev /\
  bar_fill b = bar_color cm (ev_carrier ev) /\
  mon + (bar_column b - 1) = Z.max (ev_start ev) mon /\
  mon + (bar_column b - 1) + (bar_span b - 1) = Z.min (ev_end ev) (mon + 6) /\
  1 <= bar_span b /\ 1 <= bar_column b /\ bar_column b + bar_span b <= 8.
Proof.
  intros Hmon. unfold bar_of.
  destruct (Z.ltb_spec (Z.min (ev_end ev) (mon + 6)) (Z.max (ev_start ev) mon))
    as [Hlt|Hge]; [discriminate |].
  intros [= <-]. cbn [bar_event bar_fill bar_column bar_span].
  assert (weekday (Z.max (ev_start ev) mon) = Z.max (ev_start ev) mon - mon)
    as ->.
  { replace (Z.max (ev_start ev) mon)
      with (mon + (Z.max (ev_start ev) mon - mon)) at 1 by lia.
    apply weekday_offset; [exact Hmon | lia]. }
  repeat split; lia.
Qed.

Lemma calendar_bars_In (cm : gmap (list N) (list N)) (window_start : date)
    (days : Z) (events : list Event) (b : Bar) :
  In b (calendar_bars cm window_start days events) <->
  exists y m week ev,
    In (y, m) (months window_start (window_start + (days - 1))) /\
    In week (monthdatescalendar y m) /\ In ev events /\
    bar_of cm (List.hd 0 week) (List.last week 0) ev = Some b.
Proof.
  unfold calendar_bars, week_bars. rewrite in_flat_map. split.
  - intros ([y m] & Hym & Hin). apply in_flat_map in Hin as (week & Hw & Hin).
    apply list_elem_of_In, list_elem_of_omap in Hin as (ev & Hev & Hb).
    exists y, m, week, ev. repeat split; try assumption.
    apply list_elem_of_In. exact Hev.
  - intros (y & m & week & ev & Hym & Hw & Hev & Hb).
    exists (y, m). split; [exact Hym |]. apply in_flat_map.
    exists week. split; [exact Hw |].
    apply list_elem_of_In, list_elem_of_omap. exists ev.
    split; [apply list_elem_of_In; exact Hev | exact Hb].
Qed.

(** X16: every bar fits the seven-column grid of its week.  It starts in a
    column from 1 to 7, spans at least one column and ends by column 7; it
    shows an event of the list in the colour looked up for the carrier of
    the event; and it covers exactly the days of the event that fall in its
    week, a week of seven days from a Monday [mon]: from the later of the
    first day of the event and [mon] to the earlier of the last day of the
    event and the Sunday. *)
Theorem bars_fit_grid (cm : gmap (list N) (list N)) (window_start : date)
    (days : Z) (events : list Event) (b : Bar) :
  In b (calendar_bars cm window_start days events) ->
  1 <= bar_column b <= 7 /\ 1 <= bar_span b /\
  bar_column b + bar_span b <= 8 /\
  In (bar_event b) events /\
  bar_fill b = bar_color cm (ev_carrier (bar_event b)) /\
  exists mon : date,
    weekday mon = 0 /\
    mon + (bar_column b - 1) = Z.max (ev_start (bar_event b)) mon /\
    mon + (bar_column b - 1) + (bar_span b - 1)
    = Z.min (ev_end (bar_event b)) (mon + 6).
Proof.
  intros Hin.
  apply calendar_bars_In in Hin as (y & m & week & ev & _ & Hw & Hev & Hb).
  apply monthdatescalendar_week in Hw as (mon & -> & Hmon).
  cbn [List.hd List.last] in Hb.
  apply bar_of_inv in Hb as (-> & Hfill & Hc & Hs & H1 & H2 & H3); [|exact Hmon].
  repeat split; try assumption; try lia.
  exists mon. repeat split; assumption.
Qed.

Lemma bars_fit_grid_witness :
  In bar_white
     (calendar_bars (color_map [item_white]) (mkdate 2024 3 1) 14
                    [event_white]) /\
  1 <= bar_column bar_white <= 7 /\ 1 <= bar_span bar_white /\
  bar_column bar_white + bar_span bar_white <= 8.
Proof.
  assert (In bar_white
            (calendar_bars (color_map [item_white]) (mkdate 2024 3 1) 14
                           [event_white])) as Hin
    by (vm_compute; left; reflexivity).
  destruct (bars_fit_grid _ _ _ _ _ Hin) as (H1 & H2 & H3 & _).
  split; [exact Hin | split; [exact H1 | split; [exact H2 | exact H3]]].
Defined.

(** X17: no event of the window is left out of the page.  Every event that
    [make_events_for_product] gives for a window has a bar that begins on the
    first day of the event, in the column of that day's weekday. *)
Theorem every_event_drawn (cm : gmap (list N) (list N))
    (intransit : list Item) (prod : text) (window_start : date) (days : Z)
    (ev : Event) :
  In ev (make_events_for_product intransit prod window_start days) ->
  exists b,
    In b (calendar_bars cm window_start days
            (make_events_for_product intransit prod window_start days)) /\
    bar_event b = ev /\ bar_column b = weekday (ev_start ev) + 1.
Proof.
  intros Hev. pose proof Hev as Hev'. unfold make_events_for_product in Hev'.
  apply list_elem_of_In, list_elem_of_omap in Hev' as (r & _ & Hr).
  apply event_of_inv in Hr as (s & _ & Hstart & Hend & Hle & _).
  destruct (months_cover window_start (window_start + (days - 1)) (ev_start ev))
    as (y & m & Hym & Hm & Hd); [lia |].
  destruct (monthdatescalendar_cover y m (ev_start ev) Hd)
    as (week & Hw & Hwd).
  destruct (monthdatescalendar_week _ _ _ Hw) as (mon & -> & Hmon).
  cbn [List.hd List.last] in Hwd.
  destruct (bar_of cm mon (mon + 6) ev) as [b|] eqn:Hb.
  - exists b. split.
    + apply calendar_bars_In. exists y, m, [mon; mon + 1; mon + 2; mon + 3; mon + 4; mon + 5; mon + 6], ev.
      repeat split; [exact Hym | exact Hw | exact Hev | exact Hb].
    + unfold bar_of in Hb.
      destruct (Z.min (ev_end ev) (mon + 6) <? Z.max (ev_start ev) mon);
        [discriminate |].
      injection Hb as <-. cbn [bar_event bar_column].
      split; [reflexivity |]. f_equal. f_equal. lia.
  - unfold bar_of in Hb.
    destruct (Z.ltb_spec (Z.min (ev_end ev) (mon + 6)) (Z.max (ev_start ev) mon));
      [lia | discriminate].
Qed.

Lemma every_event_drawn_witness :
  In event_white
     (make_events_for_product [item_white] (u "白色粉末优镁粉")
                              (mkdate 2024 3 1) 14) /\
  exists b,
    In b (calendar_bars (color_map [item_white]) (mkdate 2024 3 1) 14
            (make_events_for_product [item_white] (u "白色粉末优镁粉")
                                     (mkdate 2024 3 1) 14)) /\
    bar_event b = event_white /\
    bar_column b = weekday (ev_start event_white) + 1.
Proof.
  assert (In event_white
            (make_events_for_product [item_white] (u "白色粉末优镁粉")
                                     (mkdate 2024 3 1) 14)) as Hin
    by (vm_compute; left; reflexivity).
  split; [exact Hin |].
  exact (every_event_drawn (color_map [item_white]) [item_white]
           (u "白色粉末优镁粉") (mkdate 2024 3 1) 14 event_white Hin).
Defined.
Lemma months_from_next (fuel : nat) (y m : Z) (window_end : date)
    (i : nat) (y1 m1 y2 m2 : Z) :
  months_from fuel y m window_end !! i = Some (y1, m1) ->
  months_from fuel y m window_end !! S i = Some (y2, m2) ->
  (y2, m2) = (if m1 =? 12 then (y1 + 1, 1) else (y1, m1 + 1)).
Proof.
  revert y m i. induction fuel as [|fuel IH]; intros y m i H1 H2;
    [discriminate |].
  cbn [months_from] in H1, H2.
  destruct (mkdate y m 1 <=? window_end); [|discriminate].
  destruct i as [|i].
  - cbn in H1. injection H1 as <- <-. cbn in H2.
    destruct (m =? 12); (destruct fuel as [|fuel]; [discriminate |]);
      cbn [months_from] in H2;
      match type of H2 with
      | context [if ?b then _ else _] => destruct b; [|discriminate]
      end; cbn in H2; congruence.
  - change ((?x :: ?l) !! S ?j) with (l !! j) in H1, H2.
    destruct (m =? 12); eapply IH; eassumption.
Qed.

(** X18: the months of the page.  Every day of the window falls in a listed
    month; every listed month is a month from 1 to 12 that begins on or
    before the last day of the window and not before the month of the first
    day; and each listed month is followed by the next month of the
    calendar, December by January of the next year. *)
Theorem months_cover_window (window_start window_end : date) :
  (forall d : date,
     window_start <= d <= window_end ->
     exists y m, In (y, m) (months window_start window_end) /\
                 mkdate y m 1 <= d < next_first y m) /\
  (forall y m : Z,
     In (y, m) (months window_start window_end) ->
     1 <= m <= 12 /\ mkdate y m 1 <= window_end /\
     match civil window_start with
     | (y0, m0, _) => mkdate y0 m0 1 <= mkdate y m 1
     end) /\
  (forall (i : nat) (y1 m1 y2 m2 : Z),
     months window_start window_end !! i = Some (y1, m1) ->
     months window_start window_end !! S i = Some (y2, m2) ->
     (y2, m2) = (if m1 =? 12 then (y1 + 1, 1) else (y1, m1 + 1))).
Proof.
  split; [| split].
  - intros d Hd. destruct (months_cover _ _ _ Hd) as (y & m & H1 & _ & H2).
    exists y, m. tauto.
  - intros y m. unfold months.
    pose proof (civil_month_range window_start) as Hm.
    destruct (civil window_start) as [[y0 m0] d0]. intros Hin.
    apply months_from_range in Hin; [lia | exact Hm].
  - unfold months. destruct (civil window_start) as [[y0 m0] d0].
    apply months_from_next.
Qed.

Lemma monday_diff (a b : date) :
  7 * ((b - weekday b - (a - weekday a)) / 7) = b - weekday b - (a - weekday a).
Proof.
  unfold weekday.
  replace (b - (b + 3) mod 7 - (a - (a + 3) mod 7))
    with (((b + 3) / 7 - (a + 3) / 7) * 7) by div_lia.
  rewrite Z.div_mul by lia. lia.
Qed.

(** X19: a week that runs over the end of a month is laid out twice.  When the
    month after [m] does not begin on a Monday, the week of its first day is
    both a week of month [m] and a week of the next month, so the bars of
    that week are on the page under both months. *)
Theorem straddling_week_in_both_months (y m : Z) :
  1 <= m <= 12 ->
  weekday (next_first y m) <> 0 ->
  let mon := next_first y m - weekday (next_first y m) in
  let week := [mon; mon + 1; mon + 2; mon + 3; mon + 4; mon + 5; mon + 6] in
  In week (monthdatescalendar y m) /\
  In week (if m =? 12 then monthdatescalendar (y + 1) 1
           else monthdatescalendar y (m + 1)).
Proof.
  intros Hm Hwd mon week.
  pose proof (month_step y m Hm) as Hstep. fold (next_first y m) in Hstep.
  assert (exists y' m', 1 <= m' <= 12 /\ next_first y m = mkdate y' m' 1 /\
            (if m =? 12 then monthdatescalendar (y + 1) 1
             else monthdatescalendar y (m + 1)) = monthdatescalendar y' m')
    as (y' & m' & Hm' & Hnext & ->).
  { unfold next_first. destruct (Z.eqb_spec m 12).
    - exists (y + 1), 1. split; [lia | split; reflexivity].
    - exists y, (m + 1). split; [lia | split; reflexivity]. }
  pose proof (month_step y' m' Hm') as Hstep'. fold (next_first y' m') in Hstep'.
  subst week mon.
  unfold monthdatescalendar. fold (next_first y m) (next_first y' m').
  rewrite Hnext in Hstep, Hwd. rewrite !Hnext. clear Hnext.
  rewrite seqZ_0_7. cbn [map]. split; apply in_map_iff.
  - exists ((mkdate y' m' 1 - weekday (mkdate y' m' 1)
             - (mkdate y m 1 - weekday (mkdate y m 1))) / 7).
    pose proof (monday_diff (mkdate y m 1) (mkdate y' m' 1)) as Hdiff.
    set (w := (mkdate y' m' 1 - weekday (mkdate y' m' 1)
               - (mkdate y m 1 - weekday (mkdate y m 1))) / 7) in *.
    split.
    + repeat f_equal; lia.
    + apply list_elem_of_In, elem_of_seqZ. clearbody w.
      unfold weekday in *. div_lia.
  - exists 0. split; [repeat f_equal; lia |].
    apply list_elem_of_In, elem_of_seqZ. unfold weekday. div_lia.
Qed.

Lemma straddling_week_in_both_months_witness :
  1 <= 2 <= 12 /\ weekday (next_first 2024 2) <> 0 /\
  In (map (fun i => mkdate 2024 2 26 + i) (seqZ 0 7))
     (monthdatescalendar 2024 2) /\
  In (map (fun i => mkdate 2024 2 26 + i) (seqZ 0 7))
     (monthdatescalendar 2024 3).
Proof.
  assert (1 <= 2 <= 12) as Hm by lia.
  assert (weekday (next_first 2024 2) <> 0) as Hwd by (vm_compute; lia).
  split; [exact Hm | split; [exact Hwd |]].
  exact (straddling_week_in_both_months 2024 2 Hm Hwd).
Defined.
(** ** Which parts of a product text give an item *)

Lemma first_with_none (rest : regex) (s : text) (es : list text) :
  first_with rest s es = None <-> flat_map (rmatch rest) es = [].
Proof.
  induction es as [|e es IH]; simpl; [tauto |].
  destruct (rmatch rest e) as [|e2 l]; simpl; [exact IH |].
  split; discriminate.
Qed.

Lemma match_group1_none (g rest : regex) (s : text) :
  match_group1 g rest s = None <-> matches_at (Seq g rest) s = false.
Proof.
  unfold match_group1, matches_at. rewrite first_with_none. cbn [rmatch].
  destruct (flat_map (rmatch rest) (rmatch g s)); split;
    congruence || discriminate.
Qed.

Lemma search_group1_none (g rest : regex) (s : text) :
  search_group1 g rest s = None <-> re_search (Seq g rest) s = false.
Proof.
  induction s as [|c s IH]; cbn [search_group1 re_search];
    rewrite orb_false_iff, <- match_group1_none.
  - destruct (match_group1 g rest []) as [[grp e]|]; split;
      try discriminate; try tauto. intros [[=] _].
  - destruct (match_group1 g rest (c :: s)) as [[grp e]|].
    + split; [discriminate | intros [[=] _]].
    + rewrite IH. tauto.
Qed.

Lemma lang_QTY_REST (p : text) :
  lang QTY_REST p <-> exists sp, p = sp ++ u "吨" /\ forallb py_isspace sp = true.
Proof.
  unfold QTY_REST. cbn [lang]. split.
  - intros (sp & t & -> & Hsp & ->). exists sp. tauto.
  - intros (sp & -> & Hsp). exists sp, (u "吨"). tauto.
Qed.

(** X20: a part of a product text is skipped for two reasons only.  It gives
    no item exactly when, once stripped, it holds no numeral (digits, with an
    optional point and digits) followed by optional white space and 吨, or
    when no rule gives it a category.  Reading the numeral as a number never
    fails. *)
Theorem part_skipped_iff (row : TrackRow) (part : text) :
  item_of_part row part = None <->
  (~ exists a g sp b,
       strip part = a ++ g ++ sp ++ u "吨" ++ b /\
       lang QTY_GROUP g /\ forallb py_isspace sp = true) \/
  normalize_product (strip part) = None.
Proof.
  assert (search_group1 QTY_GROUP QTY_REST (strip part) = None <->
          ~ exists a g sp b,
              strip part = a ++ g ++ sp ++ u "吨" ++ b /\
              lang QTY_GROUP g /\ forallb py_isspace sp = true) as Hnone.
  { rewrite search_group1_none, <- not_true_iff_false, re_search_spec.
    apply not_iff_compat. split.
    - intros (a & p & b & Hs & Hp). cbn [lang] in Hp.
      destruct Hp as (g & t & -> & Hg & Ht).
      apply lang_QTY_REST in Ht as (sp & -> & Hsp).
      exists a, g, sp, b. rewrite Hs, <- !app_assoc. tauto.
    - intros (a & g & sp & b & Hs & Hg & Hsp).
      exists a, (g ++ sp ++ u "吨"), b. split.
      + rewrite Hs, <- !app_assoc. reflexivity.
      + cbn [lang]. exists g, (sp ++ u "吨"). split; [reflexivity |].
        split; [exact Hg |]. apply lang_QTY_REST. exists sp. tauto. }
  rewrite <- Hnone. unfold item_of_part.
  destruct (search_group1 QTY_GROUP QTY_REST (strip part)) as [g|] eqn:Hg.
  - destruct (qty_group_float _ _ Hg) as [q ->].
    destruct (normalize_product (strip part)) as [base|].
    + split; [discriminate | intros [[=] | [=]]].
    + split; [right; reflexivity | reflexivity].
  - split; [left; reflexivity | reflexivity].
Qed.

Lemma length_omap_le {A B : Type} (f : A -> option B) (l : list A) :
  (length (omap f l) <= length l)%nat.
Proof.
  induction l as [|x l IH]; cbn [omap list_omap length]; [lia |].
  destruct (f x); cbn [length]; lia.
Qed.

(** X21: a tracking row gives at most one item for each part of its product
    text, that is no more items than one plus the number of its separators
    [+], [,] and [，]; the items come in the order of their parts. *)
Theorem split_product_items_count (row : TrackRow) :
  (length (split_product_items row)
   <= S (length (List.filter is_separator (row_product row))))%nat /\
  map raw_name (split_product_items row)
  `sublist_of` map strip (re_split is_separator (row_product row)).
Proof.
  unfold split_product_items. split.
  - rewrite <- re_split_length. apply length_omap_le.
  - induction (re_split is_separator (row_product row)) as [|p ps IH];
      cbn [omap list_omap map]; [constructor |].
    destruct (item_of_part row p) as [it|] eqn:Hit.
    + cbn [map]. apply item_of_part_sound in Hit as (-> & _).
      apply sublist_skip. exact IH.
    + apply sublist_cons. exact IH.
Qed.

(** X22: white space around a product name never changes its category: a name
    between two runs of white space is normalised as the name itself. *)
Theorem normalize_product_padding (pad1 name pad2 : text) :
  forallb py_isspace pad1 = true -> forallb py_isspace pad2 = true ->
  normalize_product (pad1 ++ name ++ pad2) = normalize_product name.
Proof.
  intros H1 H2. unfold normalize_product, preclean.
  rewrite (strip_padding pad1 name pad2 H1 H2). reflexivity.
Qed.

Lemma normalize_product_padding_witness :
  normalize_product (u "  " ++ u "白色粉末优镁粉" ++ u " ")
  = normalize_product (u "白色粉末优镁粉").
Proof.
  apply (normalize_product_padding (u "  ") (u "白色粉末优镁粉") (u " "));
    vm_compute; reflexivity.
Defined.

(** ** Colours of the carriers *)

Lemma PALETTE_NoDup : NoDup PALETTE.
Proof.
  apply (bool_decide_eq_true_1 (NoDup PALETTE)). vm_compute. reflexivity.
Qed.

Lemma PALETTE_length : length PALETTE = 10%nat.
Proof. reflexivity. Qed.

Lemma sorted_length (l : list text) : length (sorted l) = length l.
Proof.
  unfold sorted. apply Permutation_length, merge_sort_Permutation.
Qed.

Lemma carrier_index (l : list Item) (c : text) :
  In (Some c) (map carrier l) ->
  exists i : nat, sorted (carriers l) !! i = Some c /\
                  (i < length (carriers l))%nat.
Proof.
  intros Hc.
  assert (c ∈ sorted (carriers l)) as Hin.
  { apply list_elem_of_In. rewrite sorted_In. unfold carriers.
    rewrite unique_In, carriers_In. exact Hc. }
  apply list_elem_of_lookup in Hin as [i Hi]. exists i. split; [exact Hi |].
  rewrite <- sorted_length. exact (lookup_lt_Some _ _ _ Hi).
Qed.

(** X23: the colours of the carriers.  Every carrier of the table gets a
    colour of the palette.  With at most ten carriers no two of them share a
    colour; with more, the carrier ten places further in the sorted list
    gets the same colour again. *)
Theorem carrier_colours_distinct (l : list Item) :
  (forall c, In (Some c) (map carrier l) ->
             exists p, color_map l !! c = Some p /\ In p PALETTE) /\
  ((length (carriers l) <= 10)%nat ->
   forall c1 c2,
     In (Some c1) (map carrier l) -> In (Some c2) (map carrier l) ->
     color_map l !! c1 = color_map l !! c2 -> c1 = c2) /\
  (forall (i : nat) (c1 c2 : text),
     sorted (carriers l) !! i = Some c1 ->
     sorted (carriers l) !! (i + 10)%nat = Some c2 ->
     c1 <> c2 /\ color_map l !! c1 = color_map l !! c2).
Proof.
  split; [| split].
  - intros c Hc. destruct (carrier_index l c Hc) as (i & Hi & _).
    exists (palette_at i). rewrite (color_map_lookup l i c Hi).
    split; [apply palette_at_lookup |].
    apply list_elem_of_In, (list_elem_of_lookup_2 _ (i mod length PALETTE)%nat).
    apply palette_at_lookup.
  - intros Hlen c1 c2 H1 H2 Heq.
    destruct (carrier_index l c1 H1) as (i1 & Hi1 & Hlt1).
    destruct (carrier_index l c2 H2) as (i2 & Hi2 & Hlt2).
    rewrite (color_map_lookup l i1 c1 Hi1), (color_map_lookup l i2 c2 Hi2) in Heq.
    rewrite PALETTE_length in Heq.
    rewrite !Nat.mod_small in Heq by lia.
    assert (i1 = i2) as ->.
    { destruct (lookup_lt_is_Some_2 PALETTE i1) as [p Hp];
        [rewrite PALETTE_length; lia |].
      apply (NoDup_lookup PALETTE i1 i2 p PALETTE_NoDup Hp).
      rewrite <- Heq. exact Hp. }
    congruence.
  - intros i c1 c2 H1 H2. split.
    + intros ->.
      assert (i = (i + 10)%nat); [|lia].
      apply (NoDup_lookup (sorted (carriers l)) i (i + 10) c2);
        [apply sorted_NoDup, unique_NoDup | exact H1 | exact H2].
    + rewrite (color_map_lookup l i c1 H1), (color_map_lookup l _ c2 H2).
      rewrite PALETTE_length. f_equal.
      rewrite <- (Nat.Div0.add_mod_idemp_r i 10 10), Nat.Div0.mod_same.
      rewrite Nat.add_0_r. reflexivity.
Qed.
(** ** The calendars of the archive *)

Lemma products_with_data_In (intransit : list Item) (p : text) :
  In p (products_with_data intransit) <->
  In p PREFERRED_ORDER /\ exists it, In it intransit /\ product it = p.
Proof.
  unfold products_with_data. rewrite filter_In, isin_In, unique_In, in_map_iff.
  split; intros [H1 (it & H2 & H3)]; (split; [exact H1 |]); exists it; tauto.
Qed.

Lemma calendar_file_name_inj (p q : text) :
  calendar_file_name p = calendar_file_name q -> p = q.
Proof.
  unfold calendar_file_name. intros H.
  apply app_inv_head in H. apply app_inv_tail in H. exact H.
Qed.

(** X24: the calendars of the archive.  A category gets a calendar exactly
    when it is a name of [PREFERRED_ORDER] with at least one in-transit
    item; the calendars come in the order of that list; and the file names
    of the archive, [index.html] included, are all different, so no calendar
    replaces another. *)
Theorem zip_names_distinct (intransit : list Item) :
  (forall p : text,
     In p (products_with_data intransit) <->
     In p PREFERRED_ORDER /\ exists it, In it intransit /\ product it = p) /\
  sublist (products_with_data intransit) PREFERRED_ORDER /\
  NoDup (zip_names (products_with_data intransit)) /\
  length (zip_names (products_with_data intransit))
  = S (length (products_with_data intransit)).
Proof.
  split; [| split; [| split]].
  - apply products_with_data_In.
  - apply filter_sublist.
  - unfold zip_names. apply NoDup_app. split; [| split].
    + assert (Inj eq eq calendar_file_name) as Hinj
        by (intros p q; apply calendar_file_name_inj).
      apply (NoDup_fmap_2 calendar_file_name).
      apply (sublist_NoDup _ PREFERRED_ORDER);
        [apply PREFERRED_ORDER_NoDup | apply filter_sublist].
    + intros x Hx Hi. apply list_elem_of_In in Hx.
      apply in_map_iff in Hx as (p & <- & _).
      apply list_elem_of_In in Hi. destruct Hi as [Hi | []].
      vm_compute in Hi. discriminate.
    + apply NoDup_singleton.
  - unfold zip_names. rewrite length_app, length_map. cbn [length]. lia.
Qed.
